(** * The tapping experiment: serial protocol decoder, trial loops and score

    A shallow embedding of [experiment.py].  The script talks to a tapping
    pad over a serial link: it performs a handshake, runs a tap-counting
    (SPR) task, then a series of synchronization-continuation trials, and
    after each trial shows a score derived from the continuation taps.

    The script is a straight-line Python module: its variables are module
    globals and its loops poll the serial device.  The embedding keeps that
    shape.  The globals of a trial are one record, the serial port is a
    record holding the input buffer and the bytes written so far, and a
    statement is a function from the globals and the port to a [result]
    that carries the globals and the port as the statement leaves them,
    also when it raises or waits forever. *)

From Stdlib Require Import ZArith Lia Bool List String Ascii QArith.
From Stdlib Require Import Strings.Byte.
From Stdlib Require Import Floats.
From stdpp Require Import base list.
Import ListNotations.

Local Open Scope Z_scope.
Local Open Scope list_scope.

(** ** Python values and exceptions *)

(** The exceptions the modelled statements can raise.  The three handshake
    failures are the [Exception(...)] objects raised at lines 142, 154 and
    156; they carry what the message is formatted with. *)
Inductive pyexn : Type :=
| IndexError
| ValueError
| OverflowError
| NameError
| SerialException
| UnexpectedBanner (all_messages : list byte)
| UnexpectedResponse (in_byte : byte)
| NoResponse.

(** Python compares a [str] with a [bytes] object as unequal, whatever
    their contents; only values of the same type are compared by content. *)
Inductive pyval : Type :=
| PyStr (s : string)
| PyBytes (b : list byte).

Fixpoint bytes_eqb (a b : list byte) : bool :=
  match a, b with
  | [], [] => true
  | x :: a', y :: b' => Byte.eqb x y && bytes_eqb a' b'
  | _, _ => false
  end.

Definition py_eqb (x y : pyval) : bool :=
  match x, y with
  | PyStr a, PyStr b => String.eqb a b
  | PyBytes a, PyBytes b => bytes_eqb a b
  | _, _ => false
  end.

(** [in_byte.decode('utf-8')] on a one-byte ASCII value. *)
Definition decode (in_byte : byte) : string :=
  String (ascii_of_byte in_byte) EmptyString.

(** [int.from_bytes(b, 'little', signed=False)]. *)
Fixpoint int_from_bytes_little (b : list byte) : Z :=
  match b with
  | [] => 0
  | x :: b' => Z.of_N (Byte.to_N x) + 256 * int_from_bytes_little b'
  end.

(** A value or an exception, for the computations that touch neither the
    globals nor the port. *)
Inductive except (A : Type) : Type :=
| Value (a : A)
| Error (e : pyexn).
Arguments Value {A} a.
Arguments Error {A} e.

(** ** The serial port and the globals *)

(** [rx] is the input buffer in arrival order, [tx] the bytes written.  The
    trial loops only ever wait for a byte and read it, so when a byte
    arrives cannot be observed by them: [rx] stands for everything the
    device sends before the next [reset_input_buffer]. *)
Record serial : Type := mkSerial { rx : list byte; tx : list byte }.

Definition in_waiting (ser : serial) : nat := length (rx ser).

Definition ser_read (ser : serial) : option (byte * serial) :=
  match rx ser with
  | [] => None
  | b :: rest => Some (b, mkSerial rest (tx ser))
  end.

(** The port after [write(data)] and after [reset_input_buffer()]. *)
Definition written (data : list byte) (ser : serial) : serial :=
  mkSerial (rx ser) (tx ser ++ data).

Definition flushed (ser : serial) : serial := mkSerial [] (tx ser).

Record vars : Type := mkVars {
  phase : string;
  tone_times : list Z;
  tap_types : list string;
  tap_times : list Z;
  release_times : list Z
}.

Definition set_phase (p : string) (g : vars) : vars :=
  mkVars p (tone_times g) (tap_types g) (tap_times g) (release_times g).
Definition set_tone_times (l : list Z) (g : vars) : vars :=
  mkVars (phase g) l (tap_types g) (tap_times g) (release_times g).
Definition set_tap_types (l : list string) (g : vars) : vars :=
  mkVars (phase g) (tone_times g) l (tap_times g) (release_times g).
Definition set_tap_times (l : list Z) (g : vars) : vars :=
  mkVars (phase g) (tone_times g) (tap_types g) l (release_times g).
Definition set_release_times (l : list Z) (g : vars) : vars :=
  mkVars (phase g) (tone_times g) (tap_types g) (tap_times g) l.

(** ** Statements *)

(** What running a statement does: it returns, it waits forever on an
    input buffer that stays empty ([Spin]), or it raises.  [Fuel] is the
    bound of the loop combinators below; [sc_loop_total] and
    [spr_loop_total] show that the loops never reach it. *)
Inductive result (A : Type) : Type :=
| Ret (a : A) (g : vars) (ser : serial)
| Spin (g : vars) (ser : serial)
| Raise (e : pyexn) (g : vars) (ser : serial)
| Fuel.
Arguments Ret {A} a g ser.
Arguments Spin {A} g ser.
Arguments Raise {A} e g ser.
Arguments Fuel {A}.

Definition prog (A : Type) : Type := vars -> serial -> result A.

Definition ret {A : Type} (a : A) : prog A := fun g ser => Ret a g ser.

Definition bind {A B : Type} (m : prog A) (k : A -> prog B) : prog B :=
  fun g ser =>
    match m g ser with
    | Ret a g' ser' => k a g' ser'
    | Spin g' ser' => Spin g' ser'
    | Raise e g' ser' => Raise e g' ser'
    | Fuel => Fuel
    end.

Notation "'let*' x ':=' m 'in' k" := (bind m (fun x => k))
  (at level 10, x name, m at level 200, k at level 200, only parsing).
Notation "'run' m 'then' k" := (bind m (fun _ => k))
  (at level 10, m at level 200, k at level 200, only parsing).

Definition get {A : Type} (field : vars -> A) : prog A :=
  fun g ser => Ret (field g) g ser.

Definition assign (update : vars -> vars) : prog unit :=
  fun g ser => Ret tt (update g) ser.

Definition lift {A : Type} (c : except A) : prog A :=
  fun g ser =>
    match c with
    | Value a => Ret a g ser
    | Error e => Raise e g ser
    end.

(** [if ser.in_waiting > 0: in_byte = ser.read()] inside a loop that does
    nothing else: with nothing in the buffer the loop turns forever. *)
Definition await_byte : prog byte :=
  fun g ser =>
    match ser_read ser with
    | None => Spin g ser
    | Some (in_byte, ser') => Ret in_byte g ser'
    end.

Definition ser_write (data : list byte) : prog unit :=
  fun g ser => Ret tt g (written data ser).

Definition reset_input_buffer : prog unit :=
  fun g ser => Ret tt g (flushed ser).

(** A loop body either goes round again or leaves through [break]. *)
Inductive flow : Type := Next | Break.

(** ** [read_timestamp] (lines 11-37) *)

(** The loop: [k] is [nbytes - len(timestamp)]. *)
Fixpoint recv (k : nat) (timestamp : list byte) : prog (list byte) :=
  match k with
  | O => ret timestamp
  | S k' =>
      let* b := await_byte in
      recv k' (timestamp ++ [b])
  end.

Definition read_timestamp (nbytes : nat) : prog Z :=
  let* timestamp := recv nbytes [] in
  ret (int_from_bytes_little timestamp).

(** ** The synchronization-continuation loop (lines 256-300) *)

(** [l[-1] = v]: Python raises [IndexError] on an empty list. *)
Definition set_last (l : list string) (v : string) : except (list string) :=
  match l with
  | [] => Error IndexError
  | _ :: _ => Value (<[pred (length l) := v]> l)
  end.

Definition sc_body : prog flow :=
  let* in_byte := await_byte in
  if Byte.eqb in_byte "S" || Byte.eqb in_byte "C" then
    let* ph := get phase in
    run (if Byte.eqb in_byte "C" && negb (py_eqb (PyStr ph) (PyBytes ["C"%byte]))
         then
           let* types := get tap_types in
           let* types' := lift (set_last types (decode in_byte)) in
           assign (set_tap_types types')
         else ret tt) then
    run assign (set_phase (decode in_byte)) then
    let* t := read_timestamp 4 in
    let* tones := get tone_times in
    run assign (set_tone_times (tones ++ [t])) then
    ret Next
  else if Byte.eqb in_byte "T" then
    let* ph := get phase in
    let* types := get tap_types in
    run assign (set_tap_types (types ++ [ph])) then
    let* t := read_timestamp 4 in
    let* times := get tap_times in
    run assign (set_tap_times (times ++ [t])) then
    ret Next
  else if Byte.eqb in_byte "R" then
    let* t := read_timestamp 4 in
    let* times := get release_times in
    run assign (set_release_times (times ++ [t])) then
    ret Next
  else if Byte.eqb in_byte "I" then
    run reset_input_buffer then
    ret Break
  else ret Next.

Fixpoint sc_while (fuel : nat) : prog unit :=
  fun g ser =>
    match fuel with
    | O => Fuel
    | S fuel' =>
        match sc_body g ser with
        | Ret Next g' ser' => sc_while fuel' g' ser'
        | Ret Break g' ser' => Ret tt g' ser'
        | Spin g' ser' => Spin g' ser'
        | Raise e g' ser' => Raise e g' ser'
        | Fuel => Fuel
        end
    end.

(** Every round that does not wait forever reads at least one byte. *)
Definition sc_loop : prog unit :=
  fun g ser => sc_while (S (in_waiting ser)) g ser.

(** [b'%i' % n] for the non-negative parameters of a trial. *)
Fixpoint uint_bytes (d : Decimal.uint) : list byte :=
  match d with
  | Decimal.Nil => []
  | Decimal.D0 d' => "0"%byte :: uint_bytes d'
  | Decimal.D1 d' => "1"%byte :: uint_bytes d'
  | Decimal.D2 d' => "2"%byte :: uint_bytes d'
  | Decimal.D3 d' => "3"%byte :: uint_bytes d'
  | Decimal.D4 d' => "4"%byte :: uint_bytes d'
  | Decimal.D5 d' => "5"%byte :: uint_bytes d'
  | Decimal.D6 d' => "6"%byte :: uint_bytes d'
  | Decimal.D7 d' => "7"%byte :: uint_bytes d'
  | Decimal.D8 d' => "8"%byte :: uint_bytes d'
  | Decimal.D9 d' => "9"%byte :: uint_bytes d'
  end.

Definition format_i (n : N) : list byte := uint_bytes (N.to_uint n).

(** The tapping part of a trial: the lists are emptied, the begin command
    is sent, [phase] is set and control passes to the device until it
    signals the intertrial period. *)
Definition sc_tapping (octave ioi : N) : prog unit :=
  run assign (set_tone_times []) then
  run assign (set_tap_types []) then
  run assign (set_tap_times []) then
  run assign (set_release_times []) then
  run ser_write ("B"%byte :: format_i octave ++ format_i ioi) then
  run assign (set_phase "B") then
  sc_loop.

(** The globals when the loop of a trial starts. *)
Definition sc_init : vars := mkVars "B" [] [] [] [].

(** The rounds of the loop, as pairs of the globals before and after each
    completed round (the last pair is the round that breaks). *)
Fixpoint sc_history (fuel : nat) (g : vars) (ser : serial) : list (vars * vars) :=
  match fuel with
  | O => []
  | S fuel' =>
      match sc_body g ser with
      | Ret Next g' ser' => (g, g') :: sc_history fuel' g' ser'
      | Ret Break g' _ => [(g, g')]
      | _ => []
      end
  end.

(** The configurations the loop head passes through, from [g0] and [ser0]. *)
Inductive sc_reach (g0 : vars) (ser0 : serial) : vars -> serial -> Prop :=
| sc_reach_start : sc_reach g0 ser0 g0 ser0
| sc_reach_round g ser g' ser' :
    sc_reach g0 ser0 g ser ->
    sc_body g ser = Ret Next g' ser' ->
    sc_reach g0 ser0 g' ser'.

(** A round relabels when a tag that was already in [tap_types] differs
    afterwards. *)
Fixpoint strings_eqb (a b : list string) : bool :=
  match a, b with
  | [], [] => true
  | x :: a', y :: b' => String.eqb x y && strings_eqb a' b'
  | _, _ => false
  end.

Definition relabelled (round : vars * vars) : bool :=
  let before := tap_types (fst round) in
  negb (strings_eqb before (take (length before) (tap_types (snd round)))).

(** A round enters Continuation when it leaves [phase] at ["C"] and did not
    find it there. *)
Definition enters_continuation (round : vars * vars) : bool :=
  negb (String.eqb (phase (fst round)) "C") && String.eqb (phase (snd round)) "C".

Definition count_rounds (p : vars * vars -> bool) (h : list (vars * vars)) : nat :=
  length (filter (fun r => p r = true) h).

(** ** The tap-counting (SPR) task (lines 190-214) *)

Definition nspr_taps : nat := 30.

Definition spr_body : prog unit :=
  let* in_byte := await_byte in
  if Byte.eqb in_byte "T" then
    let* types := get tap_types in
    run assign (set_tap_types (types ++ ["P"%string])) then
    let* t := read_timestamp 4 in
    let* times := get tap_times in
    assign (set_tap_times (times ++ [t]))
  else if Byte.eqb in_byte "R" then
    let* t := read_timestamp 4 in
    let* times := get release_times in
    assign (set_release_times (times ++ [t]))
  else ret tt.

Fixpoint spr_while (fuel : nat) : prog unit :=
  fun g ser =>
    match fuel with
    | O => Fuel
    | S fuel' =>
        if (length (release_times g) <? nspr_taps)%nat then
          match spr_body g ser with
          | Ret _ g' ser' => spr_while fuel' g' ser'
          | Spin g' ser' => Spin g' ser'
          | Raise e g' ser' => Raise e g' ser'
          | Fuel => Fuel
          end
        else Ret tt g ser
    end.

Definition spr_loop : prog unit :=
  fun g ser => spr_while (S (in_waiting ser)) g ser.

Definition spr_task : prog unit :=
  run assign (set_tap_types []) then
  run assign (set_tap_times []) then
  run assign (set_release_times []) then
  run ser_write ["P"%byte] then
  run spr_loop then
  run ser_write ["I"%byte] then
  reset_input_buffer.

(** The globals when the loop of the task starts. *)
Definition spr_init (g : vars) : vars :=
  mkVars (phase g) (tone_times g) [] [] [].

Inductive spr_reach (g0 : vars) (ser0 : serial) : vars -> serial -> Prop :=
| spr_reach_start : spr_reach g0 ser0 g0 ser0
| spr_reach_round g ser g' ser' :
    spr_reach g0 ser0 g ser ->
    (length (release_times g) < nspr_taps)%nat ->
    spr_body g ser = Ret tt g' ser' ->
    spr_reach g0 ser0 g' ser'.

(** ** The score (lines 303-304) *)

(** [a[mask]] with a boolean mask: numpy raises [IndexError] when the mask
    and the array differ in length. *)
Fixpoint mask_select (a : list Z) (mask : list bool) : except (list Z) :=
  match a, mask with
  | [], [] => Value []
  | x :: a', m :: mask' =>
      match mask_select a' mask' with
      | Value rest => Value (if m then x :: rest else rest)
      | Error e => Error e
      end
  | _, _ => Error IndexError
  end.

(** [np.diff]: [a[1:] - a[:-1]]. *)
Fixpoint np_diff (a : list Z) : list Z :=
  match a with
  | x :: ((y :: _) as a') => (y - x) :: np_diff a'
  | _ => []
  end.

(** [np.array] of the timestamps is an array of 64-bit integers; numpy
    converts them to binary64, rounding to nearest, ties to even. *)
Definition f64_of_Z (z : Z) : float :=
  SF2Prim (binary_normalize prec emax z 0 false).

(** numpy's [add.reduce] over a contiguous block of binary64 numbers
    ([DOUBLE_pairwise_sum]).  Fewer than eight are added from left to
    right.  Up to 128 are added in eight lanes, [r[j] += a[i + j]] for [i]
    in steps of eight, the lanes are added as
    [((r0+r1)+(r2+r3))+((r4+r5)+(r6+r7))] and what is left over is added to
    that.  More are split at [n/2], rounded down to a multiple of eight,
    and the sums of the two parts are added. *)
Definition seq_sum (acc : float) (a : list float) : float :=
  fold_left PrimFloat.add a acc.

Fixpoint lanes (r a : list float) (steps : nat) : list float * list float :=
  match steps with
  | O => (r, a)
  | S steps' =>
      lanes (map (fun p => PrimFloat.add (fst p) (snd p)) (combine r (firstn 8 a)))
            (skipn 8 a) steps'
  end.

Definition unrolled_sum (a : list float) : float :=
  let '(r, rest) := lanes (firstn 8 a) (skipn 8 a) (length a / 8 - 1) in
  let r j := nth j r PrimFloat.zero in
  seq_sum (PrimFloat.add
             (PrimFloat.add (PrimFloat.add (r 0%nat) (r 1%nat))
                            (PrimFloat.add (r 2%nat) (r 3%nat)))
             (PrimFloat.add (PrimFloat.add (r 4%nat) (r 5%nat))
                            (PrimFloat.add (r 6%nat) (r 7%nat))))
          rest.

(** [fuel] bounds the depth of the splitting; [pairwise_sum_fuel] shows
    that the length of the block is enough. *)
Fixpoint pairwise_sum (fuel : nat) (a : list float) : float :=
  let n := length a in
  if (n <? 8)%nat then seq_sum PrimFloat.zero a
  else if (n <=? 128)%nat then unrolled_sum a
  else
    match fuel with
    | O => unrolled_sum a
    | S fuel' =>
        let n2 := (n / 2)%nat in
        let n2 := (n2 - n2 mod 8)%nat in
        PrimFloat.add (pairwise_sum fuel' (firstn n2 a))
                      (pairwise_sum fuel' (skipn n2 a))
    end.

(** [umr_sum] of an array of binary64 numbers: the result starts at 0 and
    the inner loop, given the whole array, adds its pairwise sum.  (Later
    versions of numpy start the accumulators at -0, which changes a sum
    only when every element is -0; the numbers summed here are integers
    converted to binary64 and squares, and neither is ever -0.) *)
Definition np_sum (a : list float) : float :=
  PrimFloat.add PrimFloat.zero (pairwise_sum (length a) a).

(** The elements the iterator converts and passes to the inner loop at
    once. *)
Definition bufsize : nat := N.to_nat 8192.

(** [umr_sum] of an array of integers with [dtype] binary64: the array is
    converted buffer by buffer, and the inner loop adds the pairwise sum of
    each buffer to the result.  [fuel] bounds the number of buffers;
    the length of the array is enough. *)
Fixpoint buffered_sum (fuel : nat) (acc : float) (a : list float) : float :=
  match a, fuel with
  | [], _ => acc
  | _ :: _, O => acc
  | _ :: _, S fuel' =>
      let block := firstn bufsize a in
      buffered_sum fuel' (PrimFloat.add acc (pairwise_sum (length block) block))
        (skipn bufsize a)
  end.

Definition np_sum_cast (d : list Z) : float :=
  buffered_sum (length d) PrimFloat.zero (map f64_of_Z d).

(** [ndarray.var()] of an array of integers ([_var] of numpy's
    [_methods.py], with [ddof=0]), every step in binary64: the mean is the
    sum divided by the count, the deviations are the elements, converted,
    minus the mean, and the variance is the sum of their squares divided by
    the count. *)
Definition np_var (d : list Z) : float :=
  let rcount := f64_of_Z (Z.of_nat (length d)) in
  let arrmean := PrimFloat.div (np_sum_cast d) rcount in
  let x := map (fun v => PrimFloat.sub (f64_of_Z v) arrmean) d in
  let x := map (fun v => PrimFloat.mul v v) x in
  PrimFloat.div (np_sum x) rcount.

(** [ndarray.std()]: the square root of the variance. *)
Definition np_std (d : list Z) : float := PrimFloat.sqrt (np_var d).

(** [int(x)] of a binary64 number cuts towards zero; it raises
    [ValueError] on a NaN and [OverflowError] on an infinity. *)
Definition py_int (x : float) : except Z :=
  match Prim2SF x with
  | S754_nan => Error ValueError
  | S754_infinity _ => Error OverflowError
  | S754_zero _ => Value 0
  | S754_finite s m e =>
      let a := if 0 <=? e then Z.pos m * 2 ^ e else Z.pos m / 2 ^ (- e) in
      Value (if s then - a else a)
  end.

(** [int(a.std())].  The deviation of an empty array is the NaN that
    [0/0] gives ([np_std_empty]), on which [int] raises [ValueError]. *)
Definition int_std (d : list Z) : except Z :=
  match d with
  | [] => Error ValueError
  | _ :: _ => py_int (np_std d)
  end.

Definition cont_score : prog Z :=
  let* times := get tap_times in
  let* types := get tap_types in
  let* cont_times :=
    lift (mask_select times (map (fun ty => String.eqb ty "C") types)) in
  lift (int_std (np_diff cont_times)).

(** A whole trial: the tapping, then the score that is displayed. *)
Definition sc_trial (octave ioi : N) : prog Z :=
  run sc_tapping octave ioi then
  cont_score.

(** ** The handshake (lines 127-166) *)

(** What the device and the operating system do during the handshake:
    whether the port can be opened, what the successive [readline] calls
    return before the device falls silent, and which bytes arrive during
    each one-second wait that follows the hello byte. *)
Record world : Type := mkWorld {
  port_opens : bool;
  startup : list (list byte);
  replies : list (list byte)
}.

Inductive link : Type := LinkOpen | LinkClosed.

(** [arduino_ser] is [None] while the name is unbound; [port] holds the
    buffers of the link and [waited] the seconds slept after the hello. *)
Record session : Type := mkSession {
  arduino_ser : option link;
  port : serial;
  win_open : bool;
  waited : nat
}.

Inductive ending : Type :=
| Proceed
| Quit
| Uncaught (e : pyexn).

Definition ready_banner : list byte :=
  ["R"; "e"; "a"; "d"; "y"; "!"; x0d; x0a]%byte.

(** The [readline] loop: an empty line ends it. *)
Fixpoint read_startup (lines : list (list byte)) (ready : bool)
    (all_messages : list byte) : bool * list byte :=
  match lines with
  | [] => (ready, all_messages)
  | message :: lines' =>
      if bytes_eqb message [] then (ready, all_messages)
      else read_startup lines' (ready || bytes_eqb message ready_banner)
             (all_messages ++ message)
  end.

(** [ptb.WaitSecs(1)]: the bytes sent meanwhile reach the input buffer. *)
Definition wait_sec (ser : serial) (arrivals : list (list byte)) : serial :=
  mkSerial (rx ser ++ hd [] arrivals) (tx ser).

(** The [for i in range(5)] loop with its [else]: [None] when it leaves
    through [break]; the result comes with the port and the number of
    one-second waits performed. *)
Fixpoint poll_ack (attempts : nat) (ser : serial) (arrivals : list (list byte))
  : serial * nat * option pyexn :=
  match attempts with
  | O => (ser, O, Some NoResponse)
  | S attempts' =>
      let ser := wait_sec ser arrivals in
      match ser_read ser with
      | Some (in_byte, ser) =>
          if Byte.eqb in_byte "I" then (ser, 1%nat, None)
          else (ser, 1%nat, Some (UnexpectedResponse in_byte))
      | None =>
          let '(ser, n, r) := poll_ack attempts' ser (tl arrivals) in
          (ser, S n, r)
      end
  end.

(** The [try] block.  The session is returned also when the block raises:
    what was done before the exception stays done. *)
Definition connect (w : world) (s : session) : session * option pyexn :=
  if port_opens w then
    let s := mkSession (Some LinkOpen) (port s) (win_open s) (waited s) in
    let '(ready, all_messages) := read_startup (startup w) false [] in
    if negb ready then (s, Some (UnexpectedBanner all_messages))
    else
      let ser := flushed (port s) in
      let ser := written ["H"%byte] ser in
      let '(ser, n, r) := poll_ack 5 ser (replies w) in
      (mkSession (arduino_ser s) ser (win_open s) (waited s + n), r)
  else (s, Some SerialException).

(** The [except] clause: [arduino_ser.close()] needs the name to be bound,
    and [win.close()] and [core.quit()] come after it. *)
Definition on_failure (s : session) : session * ending :=
  match arduino_ser s with
  | None => (s, Uncaught NameError)
  | Some _ =>
      (mkSession (Some LinkClosed) (port s) false (waited s), Quit)
  end.

Definition establish_connection (w : world) : session * ending :=
  let s0 := mkSession None (mkSerial [] []) true O in
  match connect w s0 with
  | (s, None) => (s, Proceed)
  | (s, Some _) => on_failure s
  end.

(** ** What the device puts on the wire *)

(** A tag byte followed by the four bytes of a timestamp. *)
Definition stamp : Type := (byte * byte * byte * byte)%type.

Definition stamp_bytes (s : stamp) : list byte :=
  let '(a, b, c, d) := s in [a; b; c; d].

Definition stamp_value (s : stamp) : Z := int_from_bytes_little (stamp_bytes s).

Definition frame (tag : byte) (s : stamp) : list byte := tag :: stamp_bytes s.

Definition frames (evs : list (byte * stamp)) : list byte :=
  concat (map (fun ev => frame (fst ev) (snd ev)) evs).

Definition stamps_of (tag : byte) (evs : list (byte * stamp)) : list Z :=
  map (fun ev => stamp_value (snd ev))
      (filter (fun ev => Byte.eqb (fst ev) tag = true) evs).

(** ** The vocabulary of the properties *)

(** As many tags as timestamps of taps. *)
Definition aligned (g : vars) : Prop :=
  length (tap_types g) = length (tap_times g).

(** The tag of a tap is in, its timestamp not yet. *)
Definition one_ahead (g : vars) : Prop :=
  length (tap_types g) = S (length (tap_times g)).

Definition aligned_or_ahead (g : vars) : Prop := aligned g \/ one_ahead g.

(** [P] holds of the globals a statement returns with, [Q] of the globals
    it stalls or raises with. *)
Definition holds_after {A : Type} (P Q : vars -> Prop) (r : result A) : Prop :=
  match r with
  | Ret _ g _ => P g
  | Spin g _ => Q g
  | Raise _ g _ => Q g
  | Fuel => True
  end.

(** The tags of the rhythm task, and the values [phase] takes in a trial. *)
Definition rhythm_tag (ty : string) : Prop := ty = "S"%string \/ ty = "C"%string.

Definition trial_tag (ty : string) : Prop :=
  ty = "B"%string \/ ty = "S"%string \/ ty = "C"%string.

(** The phase is one of the three letters and so are the tags; until a tone
    is recorded the phase is still the ["B"] it was set to after the begin
    command, and so is every tag. *)
Definition tags_ok (g : vars) : Prop :=
  trial_tag (phase g) /\ Forall trial_tag (tap_types g)
  /\ (tone_times g = [] -> phase g = "B"%string /\ Forall (eq "B"%string) (tap_types g)).

(** While the phase is ["C"], the most recent tap is tagged ["C"]: either
    it was appended under that phase or the tone that set the phase has
    rewritten it. *)
Definition cont_last (g : vars) : Prop :=
  phase g = "C"%string ->
  tap_types g !! pred (length (tap_types g)) = Some "C"%string.

(** What a round obeys: if it relabels, it enters Continuation, and the
    tags it leaves are those it found with the last one set to ["C"]. *)
Definition relabel_rule (r : vars * vars) : Prop :=
  relabelled r = true ->
  enters_continuation r = true /\
  tap_types (snd r)
  = <[pred (length (tap_types (fst r))) := "C"%string]> (tap_types (fst r)).

(** The trace S,T,S,T,C,T,T,I, a timestamp after every tag but I. *)
Definition trace_STSTCTTI (t1 t2 t3 t4 t5 t6 t7 : stamp) : list byte :=
  frame "S" t1 ++ frame "T" t2 ++ frame "S" t3 ++ frame "T" t4 ++
  frame "C" t5 ++ frame "T" t6 ++ frame "T" t7 ++ ["I"%byte].

(** The globals after the frames [evs] have been read by the tap-counting
    loop. *)
Definition spr_after (g : vars) (evs : list (byte * stamp)) : vars :=
  mkVars (phase g) (tone_times g)
    (tap_types g ++ repeat "P"%string (length (stamps_of "T" evs)))
    (tap_times g ++ stamps_of "T" evs)
    (release_times g ++ stamps_of "R" evs).

(** Frames the tap-counting loop records, and frames that leave
    [tap_types] alone in a trial. *)
Definition tap_or_release (ev : byte * stamp) : Prop :=
  fst ev = "T"%byte \/ fst ev = "R"%byte.

Definition tone_or_release (ev : byte * stamp) : Prop :=
  fst ev = "S"%byte \/ fst ev = "R"%byte.

(** Nothing arrives during the first [k] waits. *)
Definition quiet (arrivals : list (list byte)) (k : nat) : Prop :=
  forall j, (j < k)%nat -> nth j arrivals [] = [].

(** What the first byte polled makes of the handshake. *)
Definition ack_result (in_byte : byte) : option pyexn :=
  if Byte.eqb in_byte "I" then None else Some (UnexpectedResponse in_byte).

(** The timestamps of the taps tagged ["C"], in order. *)
Definition continuation_times (g : vars) : list Z :=
  map snd (filter (fun ev => String.eqb (fst ev) "C" = true)
                  (zip (tap_types g) (tap_times g))).

Definition Zsum (d : list Z) : Z := fold_right Z.add 0 d.

(** [k] is the population standard deviation of [d] cut to an integer:
    with [n] values of sum [s] and sum of squares [q] the variance is
    [(n*q - s*s) / (n*n)], and [k*k <= variance < (k+1)*(k+1)]. *)
Definition truncated_population_sd (d : list Z) (k : Z) : Prop :=
  let n := Z.of_nat (length d) in
  let v := n * Zsum (map (fun x : Z => (x * x)%Z) d) - Zsum d * Zsum d in
  0 <= k /\ n * n * (k * k) <= v < n * n * ((k + 1) * (k + 1)).

(** The number a binary64 value stands for, when it stands for one: the
    mantissa [m] scaled by [2 ^ e], with its sign. *)
Definition f64_value (x : float) : option Q :=
  match Prim2SF x with
  | S754_zero _ => Some 0%Q
  | S754_finite s m e =>
      let a := if 0 <=? e then inject_Z (Z.pos m * 2 ^ e)
               else (Z.pos m # Z.to_pos (2 ^ (- e)))%Q in
      Some (if s then (- a)%Q else a)
  | _ => None
  end.

(** The phase follows the tones: it is the ["B"] set after the begin
    command as long as no tone has been recorded, and the tag of a tone
    afterwards. *)
Definition phase_follows_tones (g : vars) : Prop :=
  (tone_times g = [] -> phase g = "B"%string)
  /\ (tone_times g <> [] -> rhythm_tag (phase g)).

(** What a round can do to the tags: leave them, append the phase it
    found, or set the last one to ["C"]. *)
Definition tags_step (g g' : vars) : Prop :=
  tap_types g' = tap_types g
  \/ tap_types g' = tap_types g ++ [phase g]
  \/ tap_types g' = <[pred (length (tap_types g)) := "C"%string]> (tap_types g).

(** The tags recorded from the [n]-th on are tags of the rhythm task. *)
Definition rhythm_from (n : nat) (g : vars) : Prop :=
  Forall rhythm_tag (drop n (tap_types g)).

(** A loop head with a tone recorded, at or after the loop head at which
    [n] tags had been recorded: the phase is a tag of the rhythm task and
    so is every tag from the [n]-th on. *)
Definition after_a_tone (n : nat) (g : vars) : Prop :=
  tone_times g <> [] /\ rhythm_tag (phase g)
  /\ (n <= length (tap_types g))%nat /\ rhythm_from n g.

(** ** Concrete inputs *)

(** The timestamp [n], for [n] below 256. *)
Definition stamp_of_nat (n : nat) : stamp :=
  match Byte.of_nat n with
  | Some b => (b, x00, x00, x00)
  | None => (xff, x00, x00, x00)
  end.

(** The globals a trial finds: what the trial before it has left. *)
Definition leftovers : vars :=
  mkVars "C" [3; 5] ["S"; "C"]%string [4; 6] [9].

(** A tap before any tone, then a trial that runs to its end. *)
Definition early_tap_port : serial :=
  mkSerial (frame "T" (stamp_of_nat 7) ++ frame "S" (stamp_of_nat 8) ++
            frame "T" (stamp_of_nat 9) ++ frame "C" (stamp_of_nat 10) ++
            frame "T" (stamp_of_nat 11) ++ ["I"%byte]) [].

(** A tap whose timestamp stops after two bytes. *)
Definition cut_short_port : serial :=
  mkSerial (frame "S" (stamp_of_nat 1) ++ ["T"; x02; x00]%byte) [].

(** Continuation, then Sync, then Continuation again, a tap before each
    ContinuationTone. *)
Definition resignalled_port : serial :=
  mkSerial (frame "S" (stamp_of_nat 1) ++ frame "T" (stamp_of_nat 2) ++
            frame "C" (stamp_of_nat 3) ++ frame "S" (stamp_of_nat 4) ++
            frame "T" (stamp_of_nat 5) ++ frame "C" (stamp_of_nat 6) ++
            ["I"%byte]) [].

(** The trace S,T,S,T,C,T,T,I with the timestamps 1 to 7. *)
Definition spec_trace_port : serial :=
  mkSerial (trace_STSTCTTI (stamp_of_nat 1) (stamp_of_nat 2) (stamp_of_nat 3)
              (stamp_of_nat 4) (stamp_of_nat 5) (stamp_of_nat 6)
              (stamp_of_nat 7)) [].

(** A record with a single tap tagged ["C"]. *)
Definition one_continuation_tap : vars :=
  mkVars "C" [10; 90] ["S"; "C"]%string [20; 100] [].

(** A record whose taps tagged ["C"] are at 100, 300, 520 and 740. *)
Definition four_continuation_taps : vars :=
  mkVars "C" [10; 50; 90] ["S"; "S"; "C"; "C"; "C"; "C"]%string
    [20; 60; 100; 300; 520; 740] [35; 75].

(** Five taps among twenty-nine releases. *)
Definition spr_before : list (byte * stamp) :=
  repeat ("R"%byte, stamp_of_nat 1) 24 ++
  repeat ("T"%byte, stamp_of_nat 2) 5 ++
  repeat ("R"%byte, stamp_of_nat 3) 5.

(** Records on which the binary64 deviation and the exact one are cut to
    different integers: the differences are 1000, 1000, 93223358, and
    669437732 followed by four times 207. *)
Definition rounded_up_taps : vars :=
  mkVars "C" [] ["C"; "C"; "C"; "C"]%string [0; 1000; 2000; 93225358] [].

Definition rounded_down_taps : vars :=
  mkVars "C" [] ["C"; "C"; "C"; "C"; "C"; "C"]%string
    [0; 669437732; 669437939; 669438146; 669438353; 669438560] [].

(** ** The trial order (lines 48-80) *)

Definition octaves : list N := [2; 3; 4; 5; 6; 7]%N.
Definition iois : list N := [400; 600]%N.

(** [itertools.product(octaves, iois)]. *)
Definition conditions : list (N * N) := list_prod octaves iois.

Definition practice_ioi : N := 500.
Definition repetitions_per_block : nat := 2.
Definition blocks : nat := 5.
Definition trials_per_block : nat := (length octaves * repetitions_per_block)%nat.

Record trial : Type := mkTrial { octave : N; ioi : N; event : string }.

(** [conditions * repetitions_per_block], the rows a block shuffles. *)
Definition block_trials : list (N * N) :=
  concat (repeat conditions repetitions_per_block).

(** [np.random.shuffle] permutes in place with the generator's state; the
    order is given for whatever the shuffles do: [shuffle_practice] is the
    shuffle of the octaves, [shuffle_block b] the shuffle of block [b]. *)
Definition trial_order (shuffle_practice : list N -> list N)
    (shuffle_block : nat -> list (N * N) -> list (N * N)) : list trial :=
  map (fun o => mkTrial o practice_ioi "practice") (shuffle_practice octaves)
  ++ flat_map
       (fun block =>
          map (fun t => mkTrial (fst t) (snd t) "trial")
              (shuffle_block block block_trials))
       (seq 0 blocks).

(** The pair of octave and interval of a trial. *)
Definition condition_of (t : trial) : N * N := (octave t, ioi t).

(** The bytes of the begin command of a trial (line 277). *)
Definition begin_command (t : trial) : list byte :=
  "B"%byte :: format_i (octave t) ++ format_i (ioi t).

(** ** The counters of the main task (lines 235-236 and 326-348) *)

Record progress : Type := mkProgress { trial_number : nat; block_number : nat }.

Definition progress_init : progress := mkProgress 1 0.

(** What is put on the screen between two trials. *)
Inductive pause : Type :=
| NoPause
| PracticeEnd
| SectionBreak (section : nat).

Definition after_trial (p : progress) : progress * pause :=
  let '(p', shown) :=
    if (block_number p =? 0)%nat && (trial_number p =? length octaves)%nat then
      (mkProgress 0 (block_number p + 1), PracticeEnd)
    else if (trial_number p =? trials_per_block)%nat
            && negb (block_number p =? blocks)%nat then
      (mkProgress 0 (block_number p + 1), SectionBreak (block_number p))
    else (p, NoPause) in
  (mkProgress (trial_number p' + 1) (block_number p'), shown).

(** The counters after [n] trials, and the pauses shown on the way. *)
Fixpoint progress_after (n : nat) : progress :=
  match n with
  | O => progress_init
  | S n' => fst (after_trial (progress_after n'))
  end.

Definition pause_after (n : nat) : pause :=
  snd (after_trial (progress_after n)).

(** The counters after [n] trials in closed form: the practice section
    counts to [length octaves], the sections after it to
    [trials_per_block], and the last section never ends. *)
Definition progress_closed (n : nat) : progress :=
  if (n <? length octaves)%nat then mkProgress (n + 1) 0
  else
    let m := (n - length octaves)%nat in
    if (m <? trials_per_block * (blocks - 1))%nat then
      mkProgress (m mod trials_per_block + 1) (m / trials_per_block + 1)
    else mkProgress (m - trials_per_block * (blocks - 1) + 1) blocks.

Definition pause_closed (n : nat) : pause :=
  if (n + 1 =? length octaves)%nat then PracticeEnd
  else
    let m := (n + 1 - length octaves)%nat in
    if (length octaves <? n + 1)%nat && (m mod trials_per_block =? 0)%nat
       && (m / trials_per_block <? blocks)%nat
    then SectionBreak (m / trials_per_block)
    else NoPause.

(** ** The main task (lines 237-348) *)







(** ** More vocabulary *)

(** The bytes the trial loop dispatches on. *)
Definition is_trial_tag (b : byte) : bool :=
  Byte.eqb b "S" || Byte.eqb b "C" || Byte.eqb b "T" || Byte.eqb b "R"
  || Byte.eqb b "I".

(** The bytes the tap-counting loop dispatches on. *)
Definition is_spr_tag (b : byte) : bool := Byte.eqb b "T" || Byte.eqb b "R".

(** A frame with one of the four tags that carry a timestamp. *)
Definition known_frame (ev : byte * stamp) : Prop :=
  fst ev = "S"%byte \/ fst ev = "C"%byte \/ fst ev = "T"%byte \/ fst ev = "R"%byte.

(** Whether a tap comes before the first ContinuationTone, if there is
    one. *)
Fixpoint tap_before_continuation (evs : list (byte * stamp)) : bool :=
  match evs with
  | [] => true
  | ev :: evs' =>
      if Byte.eqb (fst ev) "T" then true
      else if Byte.eqb (fst ev) "C" then false
      else tap_before_continuation evs'
  end.

(** The timestamps of the tones among the frames. *)
Definition tone_stamps (evs : list (byte * stamp)) : list Z :=
  map (fun ev => stamp_value (snd ev))
      (filter (fun ev => Byte.eqb (fst ev) "S" || Byte.eqb (fst ev) "C" = true) evs).

(** The globals after a frame, and after frames, have been read by the
    loop of a trial that has a tap to relabel when it needs one. *)
Definition apply_frame (g : vars) (ev : byte * stamp) : vars :=
  let t := stamp_value (snd ev) in
  if Byte.eqb (fst ev) "S" then
    set_tone_times (tone_times g ++ [t]) (set_phase "S" g)
  else if Byte.eqb (fst ev) "C" then
    set_tone_times (tone_times g ++ [t])
      (set_phase "C"
         (set_tap_types (<[pred (length (tap_types g)) := "C"%string]> (tap_types g)) g))
  else if Byte.eqb (fst ev) "T" then
    set_tap_times (tap_times g ++ [t]) (set_tap_types (tap_types g ++ [phase g]) g)
  else if Byte.eqb (fst ev) "R" then
    set_release_times (release_times g ++ [t]) g
  else g.

Definition sc_after (g : vars) (evs : list (byte * stamp)) : vars :=
  fold_left apply_frame evs g.

(** The lines [readline] returns before the first empty one. *)
Fixpoint heard (lines : list (list byte)) : list (list byte) :=
  match lines with
  | [] => []
  | message :: lines' =>
      if bytes_eqb message [] then [] else message :: heard lines'
  end.

(** [g'] keeps what [g] has recorded: the lists of timestamps only grow at
    their end, and a tag is still there, unchanged or turned into ["C"]. *)
Definition extends (g g' : vars) : Prop :=
  tone_times g `prefix_of` tone_times g'
  /\ tap_times g `prefix_of` tap_times g'
  /\ release_times g `prefix_of` release_times g'
  /\ forall i ty,
       tap_types g !! i = Some ty ->
       tap_types g' !! i = Some ty \/ tap_types g' !! i = Some "C"%string.




(** Frames the loop of a trial decodes without raising. *)
Definition decodable (evs : list (byte * stamp)) : Prop :=
  Forall known_frame evs /\ tap_before_continuation evs = true.


(** The timestamps of the taps moved by [c]. *)
Definition shift_taps (c : Z) (g : vars) : vars :=
  set_tap_times (map (Z.add c) (tap_times g)) g.

(** ** More concrete inputs *)

(** A Synchronization tone and a tap, the ContinuationTone, then two taps
    of the continuation phase 200 apart, with a release between them. *)
Definition steady_trial : list (byte * stamp) :=
  [("S"%byte, stamp_of_nat 10); ("T"%byte, stamp_of_nat 20);
   ("C"%byte, stamp_of_nat 30); ("T"%byte, stamp_of_nat 40);
   ("R"%byte, stamp_of_nat 50); ("T"%byte, stamp_of_nat 60)].

(** A trial cut off after the first tone and tap. *)
Definition short_trial : list (byte * stamp) :=
  [("S"%byte, stamp_of_nat 10); ("T"%byte, stamp_of_nat 20)].

(** The startup text of a device that never says it is ready. *)
Definition silent_device : world :=
  mkWorld true [["B"; "o"; "o"; "t"; x0d; x0a]%byte; []] [].

(** * Properties *)

(** ** Reading *)

Lemma recv_result (k : nat) :
  forall acc g ser,
    match recv k acc g ser with
    | Ret _ g' ser' =>
        g' = g /\ (length (rx ser') + k = length (rx ser))%nat /\ tx ser' = tx ser
    | Spin g' ser' => g' = g /\ (length (rx ser) < k)%nat
    | Raise _ _ _ => False
    | Fuel => False
    end.
Proof.
  induction k as [|k IH]; intros acc g ser; simpl.
  - unfold ret. repeat split; lia.
  - unfold bind, await_byte, ser_read.
    destruct ser as [[|b r] o]; simpl; [split; [reflexivity | lia]|].
    specialize (IH (acc ++ [b]) g (mkSerial r o)).
    destruct (recv k (acc ++ [b]) g (mkSerial r o)); simpl in *;
      try contradiction.
    + destruct IH as (-> & Hlen & Htx). repeat split; [lia | exact Htx].
    + destruct IH as (-> & Hlen). split; [reflexivity | lia].
Qed.

(** [read_timestamp] leaves the globals alone, takes [nbytes] bytes from
    the buffer when it returns, and never raises. *)
Lemma read_timestamp_result (n : nat) (g : vars) (ser : serial) :
  match read_timestamp n g ser with
  | Ret _ g' ser' =>
      g' = g /\ (length (rx ser') + n = length (rx ser))%nat /\ tx ser' = tx ser
  | Spin g' ser' => g' = g /\ (length (rx ser) < n)%nat
  | Raise _ _ _ => False
  | Fuel => False
  end.
Proof.
  unfold read_timestamp, bind. pose proof (recv_result n [] g ser) as H.
  destruct (recv n [] g ser); simpl; exact H.
Qed.

Lemma read_timestamp_stamp (s : stamp) (g : vars) (rest out : list byte) :
  read_timestamp 4 g (mkSerial (stamp_bytes s ++ rest) out)
  = Ret (stamp_value s) g (mkSerial rest out).
Proof. destruct s as [[[a b] c] d]. reflexivity. Qed.

(** Case analysis on one round of a loop: which tag was read, and how the
    reading of the timestamp went. *)
Ltac tag_cases H :=
  repeat match type of H with
  | context [Byte.eqb ?b ?c] =>
      is_var b;
      let E := fresh "Etag" in
      destruct (Byte.eqb b c) eqn:E;
      [apply Byte.byte_dec_bl in E; subst b|]; simpl in H
  end.

Ltac body_cases H :=
  unfold sc_body, spr_body, bind, await_byte, ser_read, get, assign, ret,
    reset_input_buffer in H;
  match type of H with
  | context [rx ?s] =>
      let in_byte := fresh "in_byte" in
      destruct s as [[|in_byte ?] ?]; simpl in H; [try discriminate|]
  end;
  [..| tag_cases H].

Ltac read_cases H :=
  match type of H with
  | context [read_timestamp ?n ?g ?s] =>
      let Hr := fresh "Hread" in
      pose proof (read_timestamp_result n g s) as Hr;
      destruct (read_timestamp n g s) as [? ? ?|? ?|? ? ?|];
      simpl in H, Hr; try contradiction; try discriminate
  end.

Ltac relabel_cases H :=
  match type of H with
  | context [set_last (tap_types ?g) ?v] =>
      let E := fresh "Etypes" in
      destruct (tap_types g) eqn:E; simpl in H; try discriminate
  end.

Lemma sc_body_shorter (g g' : vars) (ser ser' : serial) (fl : flow) :
  sc_body g ser = Ret fl g' ser' ->
  (length (rx ser') < length (rx ser))%nat.
Proof.
  intros H. body_cases H.
  all: try relabel_cases H.
  all: try read_cases H.
  all: inversion H; subst; clear H; simpl in *; lia.
Qed.

Lemma sc_body_break (g g' : vars) (ser ser' : serial) :
  sc_body g ser = Ret Break g' ser' ->
  g' = g /\ rx ser' = [] /\ tx ser' = tx ser.
Proof.
  intros H. body_cases H.
  all: try relabel_cases H.
  all: try read_cases H.
  all: inversion H; subst; clear H.
  simpl. auto.
Qed.

Lemma sc_body_no_fuel (g : vars) (ser : serial) : sc_body g ser <> Fuel.
Proof.
  intros H. body_cases H.
  all: try relabel_cases H.
  all: try read_cases H.
  all: discriminate.
Qed.

Lemma spr_body_shorter (g g' : vars) (ser ser' : serial) :
  spr_body g ser = Ret tt g' ser' ->
  (length (rx ser') < length (rx ser))%nat.
Proof.
  intros H. body_cases H.
  all: try read_cases H.
  all: inversion H; subst; clear H; simpl in *; lia.
Qed.

Lemma spr_body_no_fuel (g : vars) (ser : serial) : spr_body g ser <> Fuel.
Proof.
  intros H. body_cases H.
  all: try read_cases H.
  all: discriminate.
Qed.

Lemma spr_body_no_raise (g g' : vars) (ser ser' : serial) (e : pyexn) :
  spr_body g ser <> Raise e g' ser'.
Proof.
  intros H. body_cases H.
  all: try read_cases H.
  all: discriminate.
Qed.

(** ** The loops always give an answer *)

Lemma sc_while_total (fuel : nat) :
  forall g ser, (length (rx ser) < fuel)%nat -> sc_while fuel g ser <> Fuel.
Proof.
  induction fuel as [|fuel IH]; intros g ser Hlen; [lia|].
  simpl. destruct (sc_body g ser) as [[|] g' ser'| | |] eqn:E; try discriminate.
  - apply IH. apply sc_body_shorter in E. lia.
  - exfalso. eapply sc_body_no_fuel; eassumption.
Qed.

Theorem sc_loop_total (g : vars) (ser : serial) : sc_loop g ser <> Fuel.
Proof. apply sc_while_total. unfold in_waiting. lia. Qed.

Lemma spr_while_total (fuel : nat) :
  forall g ser, (length (rx ser) < fuel)%nat -> spr_while fuel g ser <> Fuel.
Proof.
  induction fuel as [|fuel IH]; intros g ser Hlen; [lia|].
  simpl. destruct (_ <? _)%nat; [|discriminate].
  destruct (spr_body g ser) as [[] g' ser'| | |] eqn:E; simpl; try discriminate.
  - apply IH. apply spr_body_shorter in E. lia.
  - exfalso. eapply spr_body_no_fuel; eassumption.
Qed.

Theorem spr_loop_total (g : vars) (ser : serial) : spr_loop g ser <> Fuel.
Proof. apply spr_while_total. unfold in_waiting. lia. Qed.

(** More fuel does not change an answer. *)
Lemma sc_while_more (fuel : nat) :
  forall g ser r extra,
    sc_while fuel g ser = r -> r <> Fuel -> sc_while (fuel + extra) g ser = r.
Proof.
  induction fuel as [|fuel IH]; intros g ser r extra H Hr; simpl in *; [congruence|].
  destruct (sc_body g ser) as [[|] g' ser'| | |]; auto.
Qed.

Lemma spr_while_more (fuel : nat) :
  forall g ser r extra,
    spr_while fuel g ser = r -> r <> Fuel -> spr_while (fuel + extra) g ser = r.
Proof.
  induction fuel as [|fuel IH]; intros g ser r extra H Hr; simpl in *; [congruence|].
  destruct (_ <? _)%nat; [|assumption].
  destruct (spr_body g ser) as [[] g' ser'| | |]; simpl in *; auto.
Qed.

Lemma sc_loop_any_fuel (fuel : nat) (g : vars) (ser : serial) :
  (in_waiting ser < fuel)%nat -> sc_while fuel g ser = sc_loop g ser.
Proof.
  intros H. unfold sc_loop.
  replace fuel with (S (in_waiting ser) + (fuel - S (in_waiting ser)))%nat by lia.
  apply sc_while_more; [reflexivity | apply sc_loop_total].
Qed.

Lemma spr_loop_any_fuel (fuel : nat) (g : vars) (ser : serial) :
  (in_waiting ser < fuel)%nat -> spr_while fuel g ser = spr_loop g ser.
Proof.
  intros H. unfold spr_loop.
  replace fuel with (S (in_waiting ser) + (fuel - S (in_waiting ser)))%nat by lia.
  apply spr_while_more; [reflexivity | apply spr_loop_total].
Qed.

(** ** The two tasks, from the head of their loops *)

Lemma sc_tapping_loop (octave ioi : N) (g0 : vars) (ser0 : serial) :
  sc_tapping octave ioi g0 ser0
  = sc_loop sc_init (written ("B"%byte :: format_i octave ++ format_i ioi) ser0).
Proof. reflexivity. Qed.

Lemma spr_task_loop (g0 : vars) (ser0 : serial) :
  spr_task g0 ser0
  = match spr_loop (spr_init g0) (written ["P"%byte] ser0) with
    | Ret _ g ser => Ret tt g (flushed (written ["I"%byte] ser))
    | Spin g ser => Spin g ser
    | Raise e g ser => Raise e g ser
    | Fuel => Fuel
    end.
Proof.
  unfold spr_task, bind, assign, ser_write, reset_input_buffer.
  change (set_release_times [] (set_tap_times [] (set_tap_types [] g0)))
    with (spr_init g0).
  destruct (spr_loop (spr_init g0) (written ["P"%byte] ser0)); reflexivity.
Qed.

(** ** Invariants of the loops *)

(** [P] holds at the head of every round when every completed round keeps
    it; [Q] is what a round that stalls or raises leaves behind. *)
Section LoopInvariant.
Variables P Q : vars -> Prop.

Section SyncContinuation.
Hypothesis sc_keeps : forall g ser, P g -> holds_after P Q (sc_body g ser).

Lemma sc_reach_inv (g0 g : vars) (ser0 ser : serial) :
  P g0 -> sc_reach g0 ser0 g ser -> P g.
Proof.
  intros H0 R. induction R as [|g ser g' ser' _ IH E]; [exact H0|].
  specialize (sc_keeps g ser IH). rewrite E in sc_keeps. exact sc_keeps.
Qed.

Lemma sc_while_inv (fuel : nat) :
  forall g ser, P g -> holds_after P Q (sc_while fuel g ser).
Proof.
  induction fuel as [|fuel IH]; intros g ser Hg; simpl; [exact I|].
  pose proof (sc_keeps g ser Hg) as Hb.
  destruct (sc_body g ser) as [[|] g1 ser1| | |]; simpl in *; auto.
Qed.

Lemma sc_loop_inv (g : vars) (ser : serial) :
  P g -> holds_after P Q (sc_loop g ser).
Proof. apply sc_while_inv. Qed.
End SyncContinuation.

Section TapCounting.
Hypothesis spr_keeps : forall g ser, P g -> holds_after P Q (spr_body g ser).

Lemma spr_reach_inv (g0 g : vars) (ser0 ser : serial) :
  P g0 -> spr_reach g0 ser0 g ser -> P g.
Proof.
  intros H0 R. induction R as [|g ser g' ser' _ IH _ E]; [exact H0|].
  specialize (spr_keeps g ser IH). rewrite E in spr_keeps. exact spr_keeps.
Qed.

Lemma spr_while_inv (fuel : nat) :
  forall g ser, P g -> holds_after P Q (spr_while fuel g ser).
Proof.
  induction fuel as [|fuel IH]; intros g ser Hg; simpl; [exact I|].
  destruct (_ <? _)%nat; [|exact Hg].
  pose proof (spr_keeps g ser Hg) as Hb.
  destruct (spr_body g ser) as [[] g1 ser1| | |]; simpl in *; auto.
Qed.

Lemma spr_loop_inv (g : vars) (ser : serial) :
  P g -> holds_after P Q (spr_loop g ser).
Proof. apply spr_while_inv. Qed.
End TapCounting.
End LoopInvariant.

(** ** The lengths of [tap_types] and [tap_times] *)

Lemma set_last_length (l l' : list string) (v : string) :
  set_last l v = Value l' -> length l' = length l.
Proof.
  destruct l; simpl; intros H; inversion H; subst.
  rewrite length_insert. reflexivity.
Qed.

Ltac settle_lengths :=
  simpl; unfold aligned_or_ahead, aligned, one_ahead in *;
  repeat match goal with H : _ /\ _ |- _ => destruct H end;
  subst; simpl in *;
  repeat match goal with
  | E : tap_types ?g = _ :: _, H : context [tap_types ?g] |- _ =>
      lazymatch type of H with tap_types g = _ => fail | _ => rewrite E in H end
  end;
  rewrite ?length_insert, ?length_app in *; simpl in *;
  first [lia | left; lia | right; lia].

Lemma sc_body_aligned (g : vars) (ser : serial) :
  aligned g -> holds_after aligned aligned_or_ahead (sc_body g ser).
Proof.
  intros Hg.
  remember (sc_body g ser) as r eqn:H. symmetry in H.
  body_cases H.
  all: try relabel_cases H.
  all: try read_cases H.
  all: subst r; settle_lengths.
Qed.

Lemma spr_body_aligned (g : vars) (ser : serial) :
  aligned g -> holds_after aligned aligned_or_ahead (spr_body g ser).
Proof.
  intros Hg.
  remember (spr_body g ser) as r eqn:H. symmetry in H.
  body_cases H.
  all: try read_cases H.
  all: subst r; settle_lengths.
Qed.

(** C6, amended: at the head of every round of the tap-counting loop and
    of the synchronization-continuation loop, and in the record either task
    hands over when it completes, [tap_types] and [tap_times] have the same
    length.  Inside a round the tag of a tap is appended before its
    timestamp is read, so when a task waits forever for bytes that do not
    come, [tap_types] may be one entry ahead of [tap_times]. *)
Theorem tap_lists_aligned_between_rounds
    (octave ioi : N) (g0 g : vars) (ser0 ser : serial) :
  (spr_reach (spr_init g0) ser0 g ser \/ spr_task g0 ser0 = Ret tt g ser \/
   sc_reach sc_init ser0 g ser \/ sc_tapping octave ioi g0 ser0 = Ret tt g ser ->
   length (tap_types g) = length (tap_times g))
  /\ (spr_task g0 ser0 = Spin g ser \/ sc_tapping octave ioi g0 ser0 = Spin g ser ->
      length (tap_types g) = length (tap_times g)
      \/ length (tap_types g) = S (length (tap_times g))).
Proof.
  assert (Hspr : forall s, holds_after aligned aligned_or_ahead
                             (spr_loop (spr_init g0) s)).
  { intros s. apply spr_loop_inv; [exact spr_body_aligned | reflexivity]. }
  assert (Hsc : forall s, holds_after aligned aligned_or_ahead (sc_loop sc_init s)).
  { intros s. apply sc_loop_inv; [exact sc_body_aligned | reflexivity]. }
  split.
  - intros [H | [H | [H | H]]].
    + eapply (spr_reach_inv aligned aligned_or_ahead);
        [exact spr_body_aligned | | exact H]. reflexivity.
    + rewrite spr_task_loop in H.
      specialize (Hspr (written ["P"%byte] ser0)).
      destruct (spr_loop _ _); inversion H; subst. exact Hspr.
    + eapply (sc_reach_inv aligned aligned_or_ahead);
        [exact sc_body_aligned | | exact H]. reflexivity.
    + rewrite sc_tapping_loop in H.
      specialize (Hsc (written ("B"%byte :: format_i octave ++ format_i ioi) ser0)).
      rewrite H in Hsc. exact Hsc.
  - intros [H | H].
    + rewrite spr_task_loop in H.
      specialize (Hspr (written ["P"%byte] ser0)).
      destruct (spr_loop _ _); inversion H; subst. exact Hspr.
    + rewrite sc_tapping_loop in H.
      specialize (Hsc (written ("B"%byte :: format_i octave ++ format_i ioi) ser0)).
      rewrite H in Hsc. exact Hsc.
Qed.

(** ** The tags of the taps of a trial *)

Lemma set_last_Forall (P : string -> Prop) (l l' : list string) (v : string) :
  Forall P l -> P v -> set_last l v = Value l' -> Forall P l'.
Proof.
  intros Hl Hv H. destruct l as [|x l]; simpl in H; inversion H; subst.
  apply Forall_insert; assumption.
Qed.

Lemma trial_tag_S : trial_tag (decode "S").
Proof. right. left. reflexivity. Qed.

Lemma trial_tag_C : trial_tag (decode "C").
Proof. right. right. reflexivity. Qed.

Lemma sc_body_tags_ok (g : vars) (ser : serial) :
  tags_ok g -> holds_after tags_ok (fun _ => True) (sc_body g ser).
Proof.
  unfold tags_ok. intros (Hp & Ht & H0).
  remember (sc_body g ser) as r eqn:H. symmetry in H.
  body_cases H.
  all: try relabel_cases H.
  all: try read_cases H.
  all: subst r; simpl; try exact I.
  all: repeat match goal with H : _ /\ _ |- _ => destruct H end; subst; simpl.
  all: split; [first [assumption | exact trial_tag_S | exact trial_tag_C]|].
  all: split.
  all: try (intros Hn; destruct (tone_times g); discriminate).
  all: try assumption.
  - (* C: the last tag is rewritten *)
    apply (set_last_Forall trial_tag (s :: l0) _ (decode "C") Ht trial_tag_C).
    reflexivity.
  - (* T: the phase is appended *)
    apply Forall_app. split; [assumption | constructor; [assumption | constructor]].
  - intros Hn. destruct (H0 Hn) as [Hb Hall]. split; [assumption|].
    apply Forall_app. split; [assumption|].
    constructor; [congruence | constructor].
Qed.

Lemma sc_body_T (g : vars) (s : stamp) (more out : list byte) :
  sc_body g (mkSerial (frame "T" s ++ more) out)
  = Ret Next
      (set_tap_times (tap_times g ++ [stamp_value s])
         (set_tap_types (tap_types g ++ [phase g]) g))
      (mkSerial more out).
Proof. destruct s as [[[? ?] ?] ?]. reflexivity. Qed.

Lemma sc_body_tags_step (g g' : vars) (ser ser' : serial) (fl : flow) :
  sc_body g ser = Ret fl g' ser' -> tags_step g g'.
Proof.
  intros H. unfold tags_step. body_cases H.
  all: try relabel_cases H.
  all: try read_cases H.
  all: inversion H; subst; clear H.
  all: repeat match goal with H : _ /\ _ |- _ => destruct H end; subst; simpl.
  all: try (left; reflexivity).
  all: try (right; left; reflexivity).
  right. right. reflexivity.
Qed.

Lemma sc_body_phase_follows (g : vars) (ser : serial) :
  phase_follows_tones g ->
  holds_after phase_follows_tones (fun _ => True) (sc_body g ser).
Proof.
  unfold phase_follows_tones. intros (Hb & Hr).
  remember (sc_body g ser) as r eqn:H. symmetry in H.
  body_cases H.
  all: try relabel_cases H.
  all: try read_cases H.
  all: subst r; simpl; try exact I.
  all: repeat match goal with H : _ /\ _ |- _ => destruct H end; subst; simpl.
  all: try (split; assumption).
  all: split; [intros Hn; destruct (tone_times g); discriminate|].
  all: intros _; first [left; reflexivity | right; reflexivity].
Qed.

Lemma Forall_drop_insert (P : string -> Prop) (n i : nat) (x : string)
    (l : list string) :
  Forall P (drop n l) -> P x -> Forall P (drop n (<[i := x]> l)).
Proof.
  intros Hl Hx. destruct (le_lt_dec n i) as [Hle | Hlt].
  - rewrite drop_insert_ge by exact Hle. apply Forall_insert; assumption.
  - rewrite drop_insert_lt by exact Hlt. exact Hl.
Qed.

Lemma sc_body_after_a_tone (n : nat) (g : vars) (ser : serial) :
  after_a_tone n g ->
  holds_after (after_a_tone n) (fun _ => True) (sc_body g ser).
Proof.
  unfold after_a_tone, rhythm_from. intros (Htone & Hph & Hn & Hall).
  assert (HS : rhythm_tag "S") by (left; reflexivity).
  assert (HC : rhythm_tag "C") by (right; reflexivity).
  assert (Hgrow : forall t : Z, tone_times g ++ [t] <> [])
    by (intros t E; destruct (tone_times g); discriminate).
  remember (sc_body g ser) as r eqn:H. symmetry in H.
  body_cases H.
  all: try relabel_cases H.
  all: try read_cases H.
  all: subst r; simpl; try exact I.
  all: repeat match goal with H : _ /\ _ |- _ => destruct H end; subst; simpl.
  all: try (repeat split; first [assumption | apply Hgrow]).
  - (* C: the last tag is rewritten *)
    repeat split; [apply Hgrow | exact HC | |].
    + rewrite length_insert. exact Hn.
    + apply Forall_drop_insert; assumption.
  - (* T: the phase is appended *)
    repeat split; [assumption | assumption | |].
    + rewrite length_app. simpl. lia.
    + rewrite drop_app_le by exact Hn.
      apply Forall_app. split; [assumption | constructor; [assumption | constructor]].
Qed.

(** C4, amended: a tap is tagged with the value of [phase] when it is
    read, and tags come into the record in no other way: a round leaves
    the tags alone, appends the phase it found, or sets the last tag to
    ["C"].  The phase is the ["B"] set after the begin command until the
    first tone is recorded and ["S"] or ["C"] from then on.  So the tags of
    a trial are among ["B"], ["S"] and ["C"], they are all ["B"] as long as
    no tone has been recorded, and every tap recorded after a tone is
    tagged ["S"] or ["C"]. *)
Theorem tap_tags_of_a_trial :
  (forall g s more out,
      sc_body g (mkSerial (frame "T" s ++ more) out)
      = Ret Next
          (set_tap_times (tap_times g ++ [stamp_value s])
             (set_tap_types (tap_types g ++ [phase g]) g))
          (mkSerial more out))
  /\ (forall g ser fl g' ser',
        sc_body g ser = Ret fl g' ser' ->
        tap_types g' = tap_types g
        \/ tap_types g' = tap_types g ++ [phase g]
        \/ tap_types g'
           = <[pred (length (tap_types g)) := "C"%string]> (tap_types g))
  /\ (forall octave ioi g0 ser0 g ser,
        sc_reach sc_init ser0 g ser \/ sc_tapping octave ioi g0 ser0 = Ret tt g ser ->
        (tone_times g = [] -> phase g = "B"%string)
        /\ (tone_times g <> [] -> rhythm_tag (phase g))
        /\ Forall trial_tag (tap_types g)
        /\ (tone_times g = [] -> Forall (eq "B"%string) (tap_types g)))
  /\ (forall ser0 g1 ser1 g2 ser2,
        sc_reach sc_init ser0 g1 ser1 ->
        tone_times g1 <> [] ->
        sc_reach g1 ser1 g2 ser2 \/ sc_loop g1 ser1 = Ret tt g2 ser2 ->
        (length (tap_types g1) <= length (tap_types g2))%nat
        /\ Forall rhythm_tag (drop (length (tap_types g1)) (tap_types g2))).
Proof.
  assert (Hinit : tags_ok sc_init).
  { unfold tags_ok, trial_tag; simpl; auto. }
  assert (Hinit' : phase_follows_tones sc_init).
  { split; [reflexivity | intros H; contradiction H; reflexivity]. }
  split; [exact sc_body_T|]. split; [intros g ser fl g' ser' H; exact (sc_body_tags_step g g' ser ser' fl H)|].
  split.
  - intros octave ioi g0 ser0 g ser H.
    assert (Hok : tags_ok g /\ phase_follows_tones g).
    { destruct H as [H | H].
      - split.
        + eapply (sc_reach_inv tags_ok (fun _ => True));
            [exact sc_body_tags_ok | exact Hinit | exact H].
        + eapply (sc_reach_inv phase_follows_tones (fun _ => True));
            [exact sc_body_phase_follows | exact Hinit' | exact H].
      - rewrite sc_tapping_loop in H.
        set (ser1 := written ("B"%byte :: format_i octave ++ format_i ioi) ser0) in H.
        pose proof (sc_loop_inv tags_ok (fun _ => True) sc_body_tags_ok
                      sc_init ser1 Hinit) as Hw.
        pose proof (sc_loop_inv phase_follows_tones (fun _ => True)
                      sc_body_phase_follows sc_init ser1 Hinit') as Hw'.
        rewrite H in Hw, Hw'. split; assumption. }
    destruct Hok as [(_ & Ht & H0) (Hb & Hr)].
    repeat split; try assumption. intros Hn. apply H0. exact Hn.
  - intros ser0 g1 ser1 g2 ser2 Hreach Htone Hlater.
    assert (Hph : phase_follows_tones g1).
    { eapply (sc_reach_inv phase_follows_tones (fun _ => True));
        [exact sc_body_phase_follows | exact Hinit' | exact Hreach]. }
    assert (Hstart : after_a_tone (length (tap_types g1)) g1).
    { unfold after_a_tone, rhythm_from. repeat split.
      - exact Htone.
      - apply Hph. exact Htone.
      - lia.
      - rewrite drop_all. constructor. }
    assert (Hend : after_a_tone (length (tap_types g1)) g2).
    { destruct Hlater as [H | H].
      - eapply (sc_reach_inv (after_a_tone _) (fun _ => True));
          [apply sc_body_after_a_tone | exact Hstart | exact H].
      - pose proof (sc_loop_inv (after_a_tone (length (tap_types g1)))
                      (fun _ => True) (sc_body_after_a_tone _) g1 ser1 Hstart) as Hw.
        rewrite H in Hw. exact Hw. }
    destruct Hend as (_ & _ & Hlen & Hall). split; assumption.
Qed.

(** ** Relabelling *)

(** The guard of the relabel compares the [str] in [phase] with the
    [bytes] literal, so its second half holds whatever the phase is. *)
Lemma phase_guard_holds (g : vars) :
  negb (py_eqb (PyStr (phase g)) (PyBytes ["C"%byte])) = true.
Proof. reflexivity. Qed.

Lemma strings_eqb_refl (l : list string) : strings_eqb l l = true.
Proof.
  induction l as [|x l IH]; simpl; [reflexivity|].
  rewrite String.eqb_refl. exact IH.
Qed.

Lemma not_relabelled_same (g g' : vars) :
  take (length (tap_types g)) (tap_types g') = tap_types g ->
  relabelled (g, g') = false.
Proof.
  unfold relabelled. simpl. intros ->. rewrite strings_eqb_refl. reflexivity.
Qed.

Lemma relabel_rule_same (g g' : vars) :
  take (length (tap_types g)) (tap_types g') = tap_types g ->
  relabel_rule (g, g').
Proof.
  intros H Hre. rewrite (not_relabelled_same _ _ H) in Hre. discriminate.
Qed.

Lemma lookup_last_app (l : list string) (x : string) :
  (l ++ [x]) !! pred (length (l ++ [x])) = Some x.
Proof.
  rewrite length_app. simpl.
  replace (pred (length l + 1)) with (length l) by lia.
  apply list_lookup_middle. reflexivity.
Qed.

(** A completed round keeps [cont_last] and obeys the rule of relabelling:
    under phase ["C"] the rewriting of the last tag rewrites a ["C"]. *)
Lemma sc_round_relabel (g g' : vars) (ser ser' : serial) (fl : flow) :
  cont_last g ->
  sc_body g ser = Ret fl g' ser' ->
  cont_last g' /\ relabel_rule (g, g').
Proof.
  intros Hinv H. body_cases H.
  all: try relabel_cases H.
  all: try read_cases H.
  all: inversion H; subst; clear H.
  all: repeat match goal with H : _ /\ _ |- _ => destruct H end; subst.
  - (* S *)
    split; [intros Hp; discriminate|].
    apply relabel_rule_same. apply firstn_all.
  - (* C *)
    split.
    + intros _. simpl. rewrite length_insert.
      apply list_lookup_insert_eq. simpl; lia.
    + intros Hre. split; [|simpl; rewrite Etypes; reflexivity].
      unfold enters_continuation. simpl.
      destruct (String.eqb (phase g) "C") eqn:Ep; [|reflexivity].
      apply String.eqb_eq in Ep. specialize (Hinv Ep). rewrite Etypes in Hinv.
      change (pred (length (s :: l0))) with (length l0) in Hinv.
      rewrite not_relabelled_same in Hre; [discriminate|].
      cbn [tap_types set_tone_times set_phase set_tap_types].
      rewrite Etypes. change (decode "C") with "C"%string.
      rewrite (list_insert_id _ _ _ Hinv). apply firstn_all.
  - (* T *)
    split.
    + intros Hp. simpl in *. rewrite Hp. apply lookup_last_app.
    + apply relabel_rule_same. simpl. apply take_app_length.
  - (* R *)
    split; [exact Hinv|]. apply relabel_rule_same. apply firstn_all.
  - (* I *)
    split; [exact Hinv|]. apply relabel_rule_same. apply firstn_all.
  - (* any other byte *)
    split; [exact Hinv|]. apply relabel_rule_same. apply firstn_all.
Qed.

Lemma count_rounds_le (p q : vars * vars -> bool) (h : list (vars * vars)) :
  Forall (fun r => p r = true -> q r = true) h ->
  (count_rounds p h <= count_rounds q h)%nat.
Proof.
  unfold count_rounds. induction 1 as [|r h Hr _ IH]; simpl; [lia|].
  rewrite !filter_cons.
  destruct (decide (p r = true)) as [Hp|Hp].
  - rewrite (decide_True (P := q r = true)) by auto. simpl. lia.
  - destruct (decide (q r = true)); simpl; lia.
Qed.

Lemma sc_history_relabel (fuel : nat) :
  forall g ser, cont_last g -> Forall relabel_rule (sc_history fuel g ser).
Proof.
  induction fuel as [|fuel IH]; intros g ser Hinv; simpl; [constructor|].
  destruct (sc_body g ser) as [[|] g' ser'| | |] eqn:E; try constructor.
  - exact (proj2 (sc_round_relabel _ _ _ _ _ Hinv E)).
  - apply IH. exact (proj1 (sc_round_relabel _ _ _ _ _ Hinv E)).
  - exact (proj2 (sc_round_relabel _ _ _ _ _ Hinv E)).
  - constructor.
Qed.

(** C1, amended: a round of the loop changes a tag already in [tap_types]
    only when it reads a ContinuationTone tag while the phase is not yet
    ["C"], and then it sets the tag of the most recent tap to ["C"] and
    leaves the others alone.  So a trial has at most as many relabels as it
    has entries into Continuation: one when Continuation is entered once. *)
Theorem relabel_only_entering_continuation (fuel : nat) (ser : serial) :
  Forall relabel_rule (sc_history fuel sc_init ser)
  /\ (count_rounds relabelled (sc_history fuel sc_init ser)
      <= count_rounds enters_continuation (sc_history fuel sc_init ser))%nat.
Proof.
  assert (H : Forall relabel_rule (sc_history fuel sc_init ser)).
  { apply sc_history_relabel. intros Hp. discriminate. }
  split; [exact H|].
  apply count_rounds_le. eapply Forall_impl; [exact H|].
  intros r Hr Hp. apply (Hr Hp).
Qed.

(** The history of a completed loop ends with the round that left it. *)
Lemma sc_history_final (fuel : nat) :
  forall g ser g' ser',
    sc_while fuel g ser = Ret tt g' ser' ->
    exists h, sc_history fuel g ser = h ++ [(g', g')].
Proof.
  induction fuel as [|fuel IH]; intros g ser g' ser' H; simpl in *; [discriminate|].
  destruct (sc_body g ser) as [[|] g1 ser1| | |] eqn:E; try discriminate.
  - destruct (IH _ _ _ _ H) as [h Hh]. exists ((g, g1) :: h). rewrite Hh. reflexivity.
  - inversion H; subst. apply sc_body_break in E. destruct E as [-> _].
    exists []. reflexivity.
Qed.

(** ** The trace S,T,S,T,C,T,T,I *)

(** C2, amended: the trace has four T tags, so it gives four taps, tagged
    S, C, C, C: the tap just before the C tag is appended as ["S"] and
    rewritten to ["C"] by the round that reads the C tag.  The three tones
    are recorded at the timestamps that follow S, S and C, under the phases
    S, S and C, and the round that reads I empties the input buffer and
    leaves the loop. *)
Theorem trace_STSTCTTI_run (octave ioi : N) (t1 t2 t3 t4 t5 t6 t7 : stamp)
    (g0 : vars) (later out : list byte) :
  sc_tapping octave ioi g0
    (mkSerial (trace_STSTCTTI t1 t2 t3 t4 t5 t6 t7 ++ later) out)
  = Ret tt
      (mkVars "C"
         [stamp_value t1; stamp_value t3; stamp_value t5]
         ["S"; "C"; "C"; "C"]%string
         [stamp_value t2; stamp_value t4; stamp_value t6; stamp_value t7]
         [])
      (mkSerial [] (out ++ "B"%byte :: format_i octave ++ format_i ioi))
  /\ map (fun r => (phase (snd r), tone_times (snd r), tap_types (snd r)))
         (sc_history 8 sc_init
            (mkSerial (trace_STSTCTTI t1 t2 t3 t4 t5 t6 t7 ++ later) out))
     = [("S", [stamp_value t1], []);
        ("S", [stamp_value t1], ["S"]);
        ("S", [stamp_value t1; stamp_value t3], ["S"]);
        ("S", [stamp_value t1; stamp_value t3], ["S"; "S"]);
        ("C", [stamp_value t1; stamp_value t3; stamp_value t5], ["S"; "C"]);
        ("C", [stamp_value t1; stamp_value t3; stamp_value t5], ["S"; "C"; "C"]);
        ("C", [stamp_value t1; stamp_value t3; stamp_value t5], ["S"; "C"; "C"; "C"]);
        ("C", [stamp_value t1; stamp_value t3; stamp_value t5], ["S"; "C"; "C"; "C"])]%string.
Proof.
  destruct t1 as [[[? ?] ?] ?], t2 as [[[? ?] ?] ?], t3 as [[[? ?] ?] ?],
    t4 as [[[? ?] ?] ?], t5 as [[[? ?] ?] ?], t6 as [[[? ?] ?] ?],
    t7 as [[[? ?] ?] ?].
  split; reflexivity.
Qed.

(** ** One round on one frame *)

Lemma sc_body_S (g : vars) (s : stamp) (more out : list byte) :
  sc_body g (mkSerial (frame "S" s ++ more) out)
  = Ret Next
      (set_tone_times (tone_times g ++ [stamp_value s]) (set_phase "S" g))
      (mkSerial more out).
Proof. destruct s as [[[? ?] ?] ?]. reflexivity. Qed.

Lemma sc_body_R (g : vars) (s : stamp) (more out : list byte) :
  sc_body g (mkSerial (frame "R" s ++ more) out)
  = Ret Next (set_release_times (release_times g ++ [stamp_value s]) g)
      (mkSerial more out).
Proof. destruct s as [[[? ?] ?] ?]. reflexivity. Qed.

Lemma sc_body_C_empty (g : vars) (rest out : list byte) :
  tap_types g = [] ->
  sc_body g (mkSerial ("C"%byte :: rest) out)
  = Raise IndexError g (mkSerial rest out).
Proof.
  intros H. unfold sc_body, bind, await_byte, get, lift. simpl. rewrite H.
  reflexivity.
Qed.

Lemma sc_body_C_nonempty (g g' : vars) (rest out : list byte) (ser' : serial)
    (e : pyexn) :
  tap_types g <> [] ->
  sc_body g (mkSerial ("C"%byte :: rest) out) <> Raise e g' ser'.
Proof.
  intros Hne H.
  unfold sc_body, bind, await_byte, ser_read, get, assign, ret, lift in H.
  simpl in H. destruct (tap_types g) as [|x l]; [congruence|]. simpl in H.
  read_cases H.
Qed.

Lemma frames_cons (tag : byte) (s : stamp) (evs : list (byte * stamp)) :
  frames ((tag, s) :: evs) = frame tag s ++ frames evs.
Proof. reflexivity. Qed.

Lemma frames_length (evs : list (byte * stamp)) :
  length (frames evs) = (5 * length evs)%nat.
Proof.
  induction evs as [|[tag [[[a b] c] d]] evs IH]; [reflexivity|].
  rewrite frames_cons, length_app, IH. simpl. lia.
Qed.

Lemma sc_while_C_before_tap (evs : list (byte * stamp)) (rest out : list byte) :
  Forall tone_or_release evs ->
  forall fuel g,
    (length evs < fuel)%nat -> tap_types g = [] ->
    exists g',
      sc_while fuel g (mkSerial (frames evs ++ "C"%byte :: rest) out)
      = Raise IndexError g' (mkSerial rest out)
      /\ tap_types g' = [].
Proof.
  induction 1 as [|[tag s] evs Htag _ IH]; intros fuel g Hfuel Hg;
    (destruct fuel as [|fuel]; [simpl in Hfuel; lia|]).
  - exists g. simpl. rewrite (sc_body_C_empty g rest out Hg). auto.
  - simpl in Hfuel. rewrite frames_cons, <- app_assoc.
    unfold tone_or_release in Htag. simpl in Htag. cbn [sc_while].
    destruct Htag as [-> | ->].
    + rewrite sc_body_S. apply IH; [lia | exact Hg].
    + rewrite sc_body_R. apply IH; [lia | exact Hg].
Qed.

(** C10: a round that reads the ContinuationTone tag while no tap has been
    appended raises [IndexError] at the relabel, and with a tap recorded it
    raises nothing; so a trial in which the device sends a C tag before any
    T tag ends in that exception, whatever follows. *)
Theorem continuation_before_first_tap :
  (forall g rest out,
      tap_types g = [] ->
      sc_body g (mkSerial ("C"%byte :: rest) out)
      = Raise IndexError g (mkSerial rest out))
  /\ (forall g rest out e g' ser',
         tap_types g <> [] ->
         sc_body g (mkSerial ("C"%byte :: rest) out) <> Raise e g' ser')
  /\ (forall octave ioi g0 evs rest out,
         Forall tone_or_release evs ->
         exists g,
           sc_tapping octave ioi g0 (mkSerial (frames evs ++ "C"%byte :: rest) out)
           = Raise IndexError g
               (mkSerial rest (out ++ "B"%byte :: format_i octave ++ format_i ioi))
           /\ tap_types g = []).
Proof.
  split; [exact sc_body_C_empty|].
  split; [intros g rest out e g' ser'; apply sc_body_C_nonempty|].
  intros octave ioi g0 evs rest out Hevs.
  rewrite sc_tapping_loop. unfold sc_loop, written. cbn [rx tx].
  apply sc_while_C_before_tap; [exact Hevs| |reflexivity].
  unfold in_waiting. cbn [rx].
  rewrite length_app, frames_length. lia.
Qed.

(** ** The tap-counting task *)

Lemma spr_body_T (g : vars) (s : stamp) (more out : list byte) :
  spr_body g (mkSerial (frame "T" s ++ more) out)
  = Ret tt
      (set_tap_times (tap_times g ++ [stamp_value s])
         (set_tap_types (tap_types g ++ ["P"%string]) g))
      (mkSerial more out).
Proof. destruct s as [[[? ?] ?] ?]. reflexivity. Qed.

Lemma spr_body_R (g : vars) (s : stamp) (more out : list byte) :
  spr_body g (mkSerial (frame "R" s ++ more) out)
  = Ret tt (set_release_times (release_times g ++ [stamp_value s]) g)
      (mkSerial more out).
Proof. destruct s as [[[? ?] ?] ?]. reflexivity. Qed.

Lemma spr_after_nil (g : vars) : spr_after g [] = g.
Proof. destruct g. unfold spr_after. simpl. rewrite !app_nil_r. reflexivity. Qed.

Lemma spr_after_T (g : vars) (s : stamp) (evs : list (byte * stamp)) :
  spr_after (set_tap_times (tap_times g ++ [stamp_value s])
               (set_tap_types (tap_types g ++ ["P"%string]) g)) evs
  = spr_after g (("T"%byte, s) :: evs).
Proof.
  unfold spr_after, stamps_of. rewrite !filter_cons. simpl.
  rewrite <- !app_assoc. reflexivity.
Qed.

Lemma spr_after_R (g : vars) (s : stamp) (evs : list (byte * stamp)) :
  spr_after (set_release_times (release_times g ++ [stamp_value s]) g) evs
  = spr_after g (("R"%byte, s) :: evs).
Proof.
  unfold spr_after, stamps_of. rewrite !filter_cons. simpl.
  rewrite <- !app_assoc. reflexivity.
Qed.

Lemma stamps_of_R_cons_T (s : stamp) (evs : list (byte * stamp)) :
  stamps_of "R" (("T"%byte, s) :: evs) = stamps_of "R" evs.
Proof. unfold stamps_of. rewrite filter_cons. reflexivity. Qed.

Lemma stamps_of_R_cons_R (s : stamp) (evs : list (byte * stamp)) :
  stamps_of "R" (("R"%byte, s) :: evs) = stamp_value s :: stamps_of "R" evs.
Proof. unfold stamps_of. rewrite filter_cons. reflexivity. Qed.

Lemma spr_while_round (fuel : nat) (g : vars) (ser : serial) :
  (length (release_times g) < nspr_taps)%nat ->
  spr_while (S fuel) g ser
  = match spr_body g ser with
    | Ret _ g' ser' => spr_while fuel g' ser'
    | Spin g' ser' => Spin g' ser'
    | Raise e g' ser' => Raise e g' ser'
    | Fuel => Fuel
    end.
Proof.
  intros H. cbn [spr_while].
  replace (_ <? _)%nat with true by (symmetry; apply Nat.ltb_lt; exact H).
  reflexivity.
Qed.

Lemma spr_while_done (fuel : nat) (g : vars) (ser : serial) :
  length (release_times g) = nspr_taps ->
  spr_while (S fuel) g ser = Ret tt g ser.
Proof. intros H. simpl. rewrite H. reflexivity. Qed.

(** As long as the releases stay below the target, every frame costs one
    round. *)
Lemma spr_while_frames (evs : list (byte * stamp)) :
  Forall tap_or_release evs ->
  forall fuel g more out,
    (length (release_times g) + length (stamps_of "R" evs) < nspr_taps)%nat ->
    spr_while (length evs + fuel) g (mkSerial (frames evs ++ more) out)
    = spr_while fuel (spr_after g evs) (mkSerial more out).
Proof.
  induction 1 as [|[tag s] evs Htag _ IH]; intros fuel g more out Hlt.
  - rewrite spr_after_nil. reflexivity.
  - rewrite frames_cons, <- app_assoc. cbn [length Nat.add].
    unfold tap_or_release in Htag. simpl in Htag.
    destruct Htag as [-> | ->].
    + rewrite stamps_of_R_cons_T in Hlt.
      rewrite spr_while_round by lia.
      rewrite spr_body_T, IH; [|exact Hlt].
      rewrite spr_after_T. reflexivity.
    + rewrite stamps_of_R_cons_R in Hlt. simpl in Hlt.
      rewrite spr_while_round by lia.
      rewrite spr_body_R, IH.
      * rewrite spr_after_R. reflexivity.
      * simpl. rewrite length_app. simpl. lia.
Qed.

(** C8: on a stream of T and R frames the tap-counting loop reads every
    frame up to and including the 30th R frame and nothing after it: the
    record holds exactly the taps and releases of those frames, the stop
    byte is then written and the input buffer emptied, so the bytes that
    followed are dropped unread.  On a stream with fewer than 30 R frames
    the loop does not leave: it waits for more. *)
Theorem spr_task_stops_at_target :
  (forall g0 before s30 later out,
      Forall tap_or_release before ->
      length (stamps_of "R" before) = pred nspr_taps ->
      spr_task g0 (mkSerial (frames before ++ frame "R" s30 ++ later) out)
      = Ret tt
          (mkVars (phase g0) (tone_times g0)
             (repeat "P"%string (length (stamps_of "T" before)))
             (stamps_of "T" before)
             (stamps_of "R" before ++ [stamp_value s30]))
          (mkSerial [] (out ++ ["P"; "I"]%byte)))
  /\ (forall g0 evs out,
         Forall tap_or_release evs ->
         (length (stamps_of "R" evs) < nspr_taps)%nat ->
         spr_task g0 (mkSerial (frames evs) out)
         = Spin (spr_after (spr_init g0) evs) (mkSerial [] (out ++ ["P"%byte]))).
Proof.
  split.
  - intros g0 before s30 later out Hevs Hcount.
    rewrite spr_task_loop. unfold spr_loop, in_waiting, written. cbn [rx tx].
    rewrite !length_app, frames_length.
    replace (S (5 * length before + (length (frame "R" s30) + length later)))
      with (length before + S (S (4 * length before + 4 + length later)))%nat
      by (destruct s30 as [[[? ?] ?] ?]; simpl; lia).
    rewrite spr_while_frames;
      [|exact Hevs|simpl; rewrite Hcount; unfold nspr_taps; simpl; lia].
    rewrite spr_while_round
      by (simpl; rewrite Hcount; unfold nspr_taps; simpl; lia).
    rewrite spr_body_R.
    rewrite spr_while_done.
    + unfold flushed. cbn [tx rx]. rewrite <- app_assoc. reflexivity.
    + simpl. rewrite length_app, Hcount. reflexivity.
  - intros g0 evs out Hevs Hcount.
    rewrite spr_task_loop. unfold spr_loop, in_waiting, written. cbn [rx tx].
    rewrite <- (app_nil_r (frames evs)) at 2.
    rewrite frames_length.
    replace (S (5 * length evs)) with (length evs + S (4 * length evs))%nat by lia.
    rewrite spr_while_frames; [|exact Hevs|simpl; lia].
    rewrite spr_while_round by (simpl; lia).
    reflexivity.
Qed.

(** ** The handshake *)

Lemma nth_tl (j : nat) (arrivals : list (list byte)) :
  nth j (tl arrivals) [] = nth (S j) arrivals [].
Proof. destruct arrivals; simpl; [destruct j|]; reflexivity. Qed.

Lemma hd_nth (arrivals : list (list byte)) : hd [] arrivals = nth 0 arrivals [].
Proof. destruct arrivals; reflexivity. Qed.

Lemma quiet_tl (arrivals : list (list byte)) (k : nat) :
  quiet arrivals (S k) -> quiet (tl arrivals) k.
Proof. intros H j Hj. rewrite nth_tl. apply H. lia. Qed.

Lemma poll_ack_reply (n : nat) :
  forall ser arrivals k in_byte rest,
    rx ser = [] -> (k < n)%nat -> quiet arrivals k ->
    nth k arrivals [] = in_byte :: rest ->
    poll_ack n ser arrivals
    = (mkSerial rest (tx ser), S k, ack_result in_byte).
Proof.
  induction n as [|n IH]; intros ser arrivals k in_byte rest Hrx Hk Hq Hnth; [lia|].
  cbn [poll_ack]. unfold wait_sec, ser_read. cbn [rx tx]. rewrite Hrx, hd_nth. simpl app.
  destruct k as [|k].
  - rewrite Hnth. unfold ack_result. destruct (Byte.eqb in_byte "I"); reflexivity.
  - rewrite (Hq O) by lia.
    rewrite (IH _ (tl arrivals) k in_byte rest); [reflexivity|reflexivity|lia| |].
    + apply quiet_tl. exact Hq.
    + rewrite nth_tl. exact Hnth.
Qed.

Lemma poll_ack_silence (n : nat) :
  forall ser arrivals,
    rx ser = [] -> quiet arrivals n ->
    poll_ack n ser arrivals = (ser, n, Some NoResponse).
Proof.
  induction n as [|n IH]; intros ser arrivals Hrx Hq; [reflexivity|].
  cbn [poll_ack]. unfold wait_sec, ser_read. cbn [rx tx].
  rewrite Hrx, hd_nth, (Hq O) by lia. simpl app.
  rewrite (IH _ (tl arrivals)); [|reflexivity|apply quiet_tl; exact Hq].
  destruct ser; simpl in *; subst; reflexivity.
Qed.

Lemma first_reply_or_silence (n : nat) :
  forall arrivals,
    quiet arrivals n \/
    exists k in_byte rest,
      (k < n)%nat /\ quiet arrivals k /\ nth k arrivals [] = in_byte :: rest.
Proof.
  induction n as [|n IH]; intros arrivals.
  - left. intros j Hj. lia.
  - destruct (nth 0 arrivals []) as [|b rest] eqn:E0.
    + destruct (IH (tl arrivals)) as [Hq | (k & b & rest & Hk & Hq & Hn)].
      * left. intros [|j] Hj; [exact E0|]. rewrite <- nth_tl. apply Hq. lia.
      * right. exists (S k), b, rest. repeat split; [lia| |rewrite <- nth_tl; exact Hn].
        intros [|j] Hj; [exact E0|]. rewrite <- nth_tl. apply Hq. lia.
    + right. exists O, b, rest. repeat split; [lia| |exact E0].
      intros j Hj. lia.
Qed.

Lemma bytes_eqb_eq (a : list byte) : forall b, bytes_eqb a b = true <-> a = b.
Proof.
  induction a as [|x a IH]; intros [|y b]; simpl; try (split; congruence).
  rewrite andb_true_iff, IH. split.
  - intros [Hxy ->]. apply Byte.byte_dec_bl in Hxy. congruence.
  - intros H. inversion H; subst. split; [apply Byte.byte_dec_lb|]; reflexivity.
Qed.

Lemma read_startup_heard (lines : list (list byte)) :
  forall ready all_messages,
    read_startup lines ready all_messages
    = (ready || existsb (fun m => bytes_eqb m ready_banner) (heard lines),
       all_messages ++ concat (heard lines)).
Proof.
  induction lines as [|m lines IH]; intros ready acc; cbn [read_startup heard].
  - cbn. rewrite orb_false_r, app_nil_r. reflexivity.
  - destruct (bytes_eqb m []).
    + cbn. rewrite orb_false_r, app_nil_r. reflexivity.
    + rewrite IH. cbn [existsb concat]. rewrite orb_assoc, app_assoc. reflexivity.
Qed.

Lemma banner_heard (lines : list (list byte)) :
  existsb (fun m => bytes_eqb m ready_banner) (heard lines) = true
  <-> In ready_banner (heard lines).
Proof.
  rewrite existsb_exists. split.
  - intros (m & Hin & Hm). apply bytes_eqb_eq in Hm. subst. exact Hin.
  - intros Hin. exists ready_banner. split; [exact Hin | apply bytes_eqb_eq; reflexivity].
Qed.

Lemma connect_cases (w : world) (s : session) :
  connect w s
  = if port_opens w then
      if existsb (fun m => bytes_eqb m ready_banner) (heard (startup w)) then
        let '(ser, n, r) :=
          poll_ack 5 (written ["H"%byte] (flushed (port s))) (replies w) in
        (mkSession (Some LinkOpen) ser (win_open s) (waited s + n), r)
      else
        (mkSession (Some LinkOpen) (port s) (win_open s) (waited s),
         Some (UnexpectedBanner (concat (heard (startup w)))))
    else (s, Some SerialException).
Proof.
  unfold connect. destruct (port_opens w); [|reflexivity].
  rewrite read_startup_heard. cbn [orb app negb].
  destruct (existsb _ _); reflexivity.
Qed.

Lemma poll_ack_tx (n : nat) :
  forall ser arrivals, tx (fst (fst (poll_ack n ser arrivals))) = tx ser.
Proof.
  induction n as [|n IH]; intros ser arrivals; [reflexivity|].
  cbn [poll_ack]. unfold ser_read, wait_sec. cbn [rx tx].
  destruct (rx ser ++ hd [] arrivals) as [|b r] eqn:E.
  - specialize (IH (mkSerial [] (tx ser)) (tl arrivals)).
    destruct (poll_ack n _ _) as [[s1 m] r1]. exact IH.
  - destruct (Byte.eqb b "I"); reflexivity.
Qed.

(** C7: the hello/ack step of the handshake.  When the port has opened
    and the banner has been read, the script writes the hello byte and
    waits one second at most five times.  The first byte to arrive decides:
    if it comes during the wait [k+1] the polling ends after that wait,
    with success when the byte is the ack [I] and with [UnexpectedResponse]
    carrying the byte otherwise; if nothing comes during five waits the
    result is [NoResponse].  So the handshake proceeds exactly when the
    first byte polled within five waits is [I], for instance during the
    second wait; a failure closes the link and quits.  Without the banner
    the hello byte is not written and nothing is polled. *)
Theorem hello_ack_polling (w : world) :
  port_opens w = true ->
  (In ready_banner (heard (startup w)) ->
   (waited (fst (establish_connection w)) <= 5)%nat
   /\ tx (port (fst (establish_connection w))) = ["H"%byte]
   /\ (forall k in_byte rest s,
         (k < 5)%nat -> quiet (replies w) k ->
         nth k (replies w) [] = in_byte :: rest ->
         connect w s
         = (mkSession (Some LinkOpen) (mkSerial rest (tx (port s) ++ ["H"%byte]))
              (win_open s) (waited s + S k),
            if Byte.eqb in_byte "I" then None
            else Some (UnexpectedResponse in_byte))
         /\ establish_connection w
            = if Byte.eqb in_byte "I"
              then (mkSession (Some LinkOpen) (mkSerial rest ["H"%byte]) true (S k),
                    Proceed)
              else (mkSession (Some LinkClosed) (mkSerial rest ["H"%byte]) false (S k),
                    Quit))
   /\ (quiet (replies w) 5 ->
       (forall s,
           connect w s
           = (mkSession (Some LinkOpen) (mkSerial [] (tx (port s) ++ ["H"%byte]))
                (win_open s) (waited s + 5), Some NoResponse))
       /\ establish_connection w
          = (mkSession (Some LinkClosed) (mkSerial [] ["H"%byte]) false 5, Quit))
   /\ (snd (establish_connection w) = Proceed <->
       exists k rest,
         (k < 5)%nat /\ quiet (replies w) k
         /\ nth k (replies w) [] = "I"%byte :: rest))
  /\ (~ In ready_banner (heard (startup w)) ->
      forall s,
        connect w s
        = (mkSession (Some LinkOpen) (port s) (win_open s) (waited s),
           Some (UnexpectedBanner (concat (heard (startup w))))))
  /\ (forall more,
        establish_connection (mkWorld true [ready_banner] ([] :: ["I"%byte] :: more))
        = (mkSession (Some LinkOpen) (mkSerial [] ["H"%byte]) true 2, Proceed)).
Proof.
  intros Hopen.
  assert (Hconnect : forall s,
    In ready_banner (heard (startup w)) ->
    connect w s
    = let '(ser, n, r) :=
        poll_ack 5 (mkSerial [] (tx (port s) ++ ["H"%byte])) (replies w) in
      (mkSession (Some LinkOpen) ser (win_open s) (waited s + n), r)).
  { intros s Hb. apply banner_heard in Hb.
    rewrite connect_cases, Hopen, Hb. reflexivity. }
  split; [|split].
  - intros Hb.
    assert (Hreply : forall k in_byte rest s,
      (k < 5)%nat -> quiet (replies w) k ->
      nth k (replies w) [] = in_byte :: rest ->
      connect w s
      = (mkSession (Some LinkOpen) (mkSerial rest (tx (port s) ++ ["H"%byte]))
           (win_open s) (waited s + S k), ack_result in_byte)).
    { intros k b rest s Hk Hq Hn. rewrite (Hconnect s Hb).
      rewrite (poll_ack_reply 5 (mkSerial [] (tx (port s) ++ ["H"%byte])) _ k b rest
               eq_refl Hk Hq Hn). reflexivity. }
    assert (Hsilence : quiet (replies w) 5 -> forall s,
      connect w s
      = (mkSession (Some LinkOpen) (mkSerial [] (tx (port s) ++ ["H"%byte]))
           (win_open s) (waited s + 5), Some NoResponse)).
    { intros Hq s. rewrite (Hconnect s Hb).
      rewrite (poll_ack_silence 5 (mkSerial [] (tx (port s) ++ ["H"%byte])) _
               eq_refl Hq). reflexivity. }
    unfold establish_connection.
    destruct (first_reply_or_silence 5 (replies w))
      as [Hq | (k & b & rest & Hk & Hq & Hn)].
    + rewrite (Hsilence Hq). cbn.
      split; [lia|]. split; [reflexivity|]. split; [|split; [|split]].
      * intros k b rest s Hk _ Hn. rewrite (Hq k Hk) in Hn. discriminate.
      * intros _. split; [exact (Hsilence Hq) | reflexivity].
      * discriminate.
      * intros (k & rest & Hk & _ & Hn). rewrite (Hq k Hk) in Hn. discriminate.
    + rewrite (Hreply k b rest _ Hk Hq Hn). unfold ack_result. cbn.
      assert (Hsame : forall k' b' rest',
        (k' < 5)%nat -> quiet (replies w) k' ->
        nth k' (replies w) [] = b' :: rest' -> k' = k /\ b' = b /\ rest' = rest).
      { intros k' b' rest' Hk' Hq' Hn'.
        destruct (lt_eq_lt_dec k' k) as [[Hlt | ->] | Hgt].
        - rewrite (Hq k' Hlt) in Hn'. discriminate.
        - rewrite Hn in Hn'. inversion Hn'. auto.
        - rewrite (Hq' k Hgt) in Hn. discriminate. }
      split; [destruct (Byte.eqb b "I"); cbn; lia|].
      split; [destruct (Byte.eqb b "I"); reflexivity|].
      split; [|split; [|split]].
      * intros k' b' rest' s Hk' Hq' Hn'.
        destruct (Hsame k' b' rest' Hk' Hq' Hn') as (-> & -> & ->).
        split; [exact (Hreply k b rest s Hk Hq Hn)|].
        destruct (Byte.eqb b "I"); reflexivity.
      * intros Hq5. rewrite (Hq5 k Hk) in Hn. discriminate.
      * destruct (Byte.eqb b "I") eqn:Eb; [|discriminate]. intros _.
        apply Byte.byte_dec_bl in Eb. subst b. eauto.
      * intros (k' & rest' & Hk' & Hq' & Hn').
        destruct (Hsame k' _ rest' Hk' Hq' Hn') as (_ & <- & _). reflexivity.
  - intros Hno s. rewrite <- banner_heard in Hno. apply not_true_is_false in Hno.
    rewrite connect_cases, Hopen, Hno. reflexivity.
  - intros more. reflexivity.
Qed.

(** When the port opens, the handshake ends in one of two ways: the script
    goes on with the link open, or the [except] clause closes the link and
    the window and quits. *)
Lemma handshake_closes_opened_link (w : world) :
  port_opens w = true ->
  (exists s, establish_connection w = (s, Proceed)
             /\ arduino_ser s = Some LinkOpen /\ win_open s = true)
  \/ (exists s, establish_connection w = (s, Quit)
                /\ arduino_ser s = Some LinkClosed /\ win_open s = false).
Proof.
  intros Hopen. unfold establish_connection, connect. rewrite Hopen.
  destruct (read_startup (startup w) false []) as [ready all_messages].
  destruct ready; cbn [negb].
  - match goal with
    | |- context [poll_ack 5 ?s ?a] =>
        destruct (poll_ack 5 s a) as [[ser n] [e|]]; simpl
    end.
    + right. eexists. split; [reflexivity|]. split; reflexivity.
    + left. eexists. split; [reflexivity|]. split; reflexivity.
  - right. eexists. split; [reflexivity|]. split; reflexivity.
Qed.

(** C9: when opening the port itself fails, [arduino_ser] was never bound:
    the [except] clause stops at [arduino_ser.close()] with a [NameError],
    nothing is closed (the window stays open) and the script ends on the
    uncaught exception instead of quitting. *)
Theorem open_failure_ends_in_NameError (lines arrivals : list (list byte)) :
  establish_connection (mkWorld false lines arrivals)
  = (mkSession None (mkSerial [] []) true 0, Uncaught NameError).
Proof. reflexivity. Qed.

(** ** The score *)

Lemma mask_select_zip (types : list string) :
  forall times,
    length types = length times ->
    mask_select times (map (fun ty => String.eqb ty "C") types)
    = Value (map snd (filter (fun ev => String.eqb (fst ev) "C" = true)
                             (zip types times))).
Proof.
  induction types as [|ty types IH]; intros [|t times] Hlen; simpl in Hlen;
    try discriminate; [reflexivity|].
  cbn [map mask_select]. rewrite IH by lia. cbn [zip_with].
  rewrite filter_cons. cbn [fst].
  destruct (String.eqb ty "C"); destruct (decide _); try congruence; reflexivity.
Qed.

(** On a record with as many tags as timestamps the mask selects the
    continuation timestamps and the score is the deviation of their
    differences. *)
Lemma cont_score_aligned (g : vars) (ser : serial) :
  length (tap_types g) = length (tap_times g) ->
  cont_score g ser = lift (int_std (np_diff (continuation_times g))) g ser.
Proof.
  intros Hal. unfold cont_score, bind, get.
  rewrite mask_select_zip by exact Hal. reflexivity.
Qed.

Lemma np_diff_short (c : list Z) : (length c < 2)%nat -> np_diff c = [].
Proof. destruct c as [|x [|y c]]; simpl; intros; [reflexivity|reflexivity|lia]. Qed.

Lemma np_diff_length (c : list Z) : length (np_diff c) = pred (length c).
Proof.
  induction c as [|x [|y c] IH]; [reflexivity|reflexivity|].
  change (np_diff (x :: y :: c)) with ((y - x) :: np_diff (y :: c)).
  cbn [length] in *. rewrite IH. reflexivity.
Qed.

(** The entries of [np_diff] are the successive differences. *)
Lemma np_diff_nth (c : list Z) :
  forall i, (S i < length c)%nat ->
            nth i (np_diff c) 0 = nth (S i) c 0 - nth i c 0.
Proof.
  induction c as [|x [|y c] IH]; intros i Hi; simpl in Hi; try lia.
  change (np_diff (x :: y :: c)) with ((y - x) :: np_diff (y :: c)).
  destruct i as [|i]; [reflexivity|].
  cbn [nth]. rewrite IH by (simpl; lia). reflexivity.
Qed.

(** C3, amended: with fewer than two taps tagged ["C"] there is no
    difference to take the deviation of, and the score computation raises
    [ValueError]; nothing in the script catches it. *)
Theorem score_of_too_few_continuation_taps (g : vars) (ser : serial) :
  length (tap_types g) = length (tap_times g) ->
  (length (continuation_times g) < 2)%nat ->
  cont_score g ser = Raise ValueError g ser.
Proof.
  intros Hal Hfew. rewrite cont_score_aligned by exact Hal.
  rewrite np_diff_short by exact Hfew. reflexivity.
Qed.

(** ** The binary64 arithmetic of the score *)

Lemma pairwise_sum_fuel (fuel : nat) :
  forall fuel' a,
    (length a <= fuel)%nat -> (length a <= fuel')%nat ->
    pairwise_sum fuel a = pairwise_sum fuel' a.
Proof.
  induction fuel as [|fuel IH]; intros fuel' a Hf Hf'.
  - destruct a; [|simpl in Hf; lia]. destruct fuel'; reflexivity.
  - destruct fuel' as [|fuel'].
    + destruct a; [reflexivity | simpl in Hf'; lia].
    + cbn [pairwise_sum].
      destruct (Nat.ltb_spec (length a) 8) as [|H8]; [reflexivity|].
      destruct (Nat.leb_spec (length a) 128) as [|H128]; [reflexivity|].
      assert (Hhalf : (length a / 2 <= length a / 2)%nat) by lia.
      pose proof (Nat.div_mod_eq (length a) 2) as Hdm.
      pose proof (Nat.mod_upper_bound (length a) 2 ltac:(lia)) as Hm2.
      pose proof (Nat.mod_upper_bound (length a / 2) 8 ltac:(lia)) as Hm8.
      pose proof (Nat.Div0.mod_le (length a / 2) 8) as Hle.
      f_equal; apply IH; rewrite ?length_firstn, ?length_skipn; lia.
Qed.

Lemma buffered_sum_fuel (fuel : nat) :
  forall fuel' acc a,
    (length a <= fuel)%nat -> (length a <= fuel')%nat ->
    buffered_sum fuel acc a = buffered_sum fuel' acc a.
Proof.
  assert (Hbuf : (1 <= bufsize)%nat).
  { apply Nat.leb_le. vm_compute. reflexivity. }
  induction fuel as [|fuel IH]; intros fuel' acc a Hf Hf'.
  - destruct a; [|simpl in Hf; lia]. destruct fuel'; reflexivity.
  - destruct a as [|x a]; [destruct fuel'; reflexivity|].
    destruct fuel' as [|fuel']; [simpl in Hf'; lia|].
    cbn [buffered_sum]. apply IH; rewrite length_skipn; simpl in *; lia.
Qed.

(** The deviation of no numbers at all is a NaN. *)
Lemma np_std_empty : Prim2SF (np_std []) = S754_nan.
Proof. vm_compute. reflexivity. Qed.

(** A square root is never a negative number. *)
Lemma sqrt_not_negative (y : float) :
  match Prim2SF (PrimFloat.sqrt y) with
  | S754_finite true _ _ => False
  | _ => True
  end.
Proof.
  rewrite sqrt_spec. unfold SF64sqrt, SFsqrt.
  destruct (Prim2SF y) as [s|[|]| |[|] m e]; try exact I.
  destruct (SFsqrt_core_binary prec emax (Z.pos m) e) as [[mz ez] lz].
  unfold binary_round_aux.
  destruct (shr_fexp prec emax mz ez lz) as [mrs' e'].
  destruct (shr_fexp prec emax _ e' loc_Exact) as [mrs'' e''].
  destruct (shr_m mrs''); try exact I.
  destruct (e'' <=? emax - prec); exact I.
Qed.

(** [int] cuts a number that is not negative down to the integer below
    it. *)
Lemma py_int_floor (x : float) (k : Z) :
  match Prim2SF x with S754_finite true _ _ => False | _ => True end ->
  py_int x = Value k ->
  exists v : Q,
    f64_value x = Some v
    /\ (0 <= v)%Q /\ (inject_Z k <= v)%Q /\ (v < inject_Z (k + 1))%Q.
Proof.
  unfold py_int, f64_value. intros Hsign H.
  destruct (Prim2SF x) as [s|s| |s m e]; try discriminate.
  - inversion H; subst. exists 0%Q. repeat split; unfold Qle, Qlt; simpl; lia.
  - destruct s; [contradiction|].
    destruct (Z.leb_spec 0 e) as [He | He]; inversion H; subst; clear H.
    + exists (inject_Z (Z.pos m * 2 ^ e)).
      assert (0 < 2 ^ e) by (apply Z.pow_pos_nonneg; lia).
      repeat split; unfold Qle, Qlt; simpl; nia.
    + assert (Hp : 0 < 2 ^ (- e)) by (apply Z.pow_pos_nonneg; lia).
      exists (Z.pos m # Z.to_pos (2 ^ (- e)))%Q.
      pose proof (Z.mul_div_le (Z.pos m) (2 ^ (- e)) Hp) as Hlo.
      pose proof (Z.mul_succ_div_gt (Z.pos m) (2 ^ (- e)) Hp) as Hhi.
      assert (Hdiv : 0 <= Z.pos m / 2 ^ (- e)) by (apply Z.div_pos; lia).
      repeat split; unfold Qle, Qlt; cbn [Qnum Qden inject_Z];
        rewrite ?Z2Pos.id by exact Hp; lia.
Qed.

Lemma truncated_population_sd_unique (d : list Z) (k k' : Z) :
  d <> [] ->
  truncated_population_sd d k -> truncated_population_sd d k' -> k = k'.
Proof.
  unfold truncated_population_sd. intros Hd (Hk & Hlo & Hhi) (Hk' & Hlo' & Hhi').
  assert (0 < Z.of_nat (length d)) by (destruct d; [congruence | cbn [length]; lia]).
  nia.
Qed.

(** C5, amended: the score is computed from the timestamps of the taps
    tagged ["C"]: [np_diff] takes their successive differences, numpy takes
    the population standard deviation of these in binary64 arithmetic, and
    [int] cuts that number, which is never negative, down to the integer
    below it.  For the continuation timestamps 100, 300, 520, 740 the
    differences are 200, 220, 220 and the score is 9, which is also what
    the exact deviation is cut to. *)
Theorem score_is_truncated_deviation :
  (forall g ser,
      length (tap_types g) = length (tap_times g) ->
      continuation_times g = [100; 300; 520; 740] ->
      np_diff (continuation_times g) = [200; 220; 220]
      /\ cont_score g ser = Ret 9 g ser
      /\ truncated_population_sd (np_diff (continuation_times g)) 9)
  /\ (forall c i,
         (S i < length c)%nat ->
         length (np_diff c) = pred (length c)
         /\ nth i (np_diff c) 0 = nth (S i) c 0 - nth i c 0)
  /\ (forall g ser,
         length (tap_types g) = length (tap_times g) ->
         cont_score g ser
         = lift (py_int (np_std (np_diff (continuation_times g)))) g ser)
  /\ (forall d k,
         py_int (np_std d) = Value k ->
         exists v : Q,
           f64_value (np_std d) = Some v
           /\ (0 <= v)%Q /\ (inject_Z k <= v)%Q /\ (v < inject_Z (k + 1))%Q).
Proof.
  split; [|split; [|split]].
  - intros g ser Hal Hc. rewrite cont_score_aligned by exact Hal.
    rewrite Hc. split; [reflexivity|]. split; [vm_compute; reflexivity|].
    unfold truncated_population_sd. vm_compute. intuition discriminate.
  - intros c i Hi. split; [apply np_diff_length | apply np_diff_nth; exact Hi].
  - intros g ser Hal. rewrite cont_score_aligned by exact Hal.
    unfold int_std.
    destruct (np_diff (continuation_times g)) as [|x d] eqn:Ed; [|reflexivity].
    unfold py_int. rewrite np_std_empty. reflexivity.
  - intros d k Hk. apply py_int_floor; [|exact Hk].
    apply sqrt_not_negative.
Qed.

(** * Concrete runs *)

(** C1, as stated, fails: when the device signals Continuation, Sync and
    Continuation again, the tap before the second ContinuationTone is
    relabelled as well, so the trial has two relabels. *)
Lemma relabel_twice_after_resignal :
  sc_tapping 4 600 leftovers resignalled_port
  = Ret tt (mkVars "C" [1; 3; 4; 6] ["C"; "C"]%string [2; 5] [])
      (mkSerial [] ["B"; "4"; "6"; "0"; "0"]%byte)
  /\ count_rounds relabelled (sc_history 7 sc_init resignalled_port) = 2%nat
  /\ ~ (count_rounds relabelled (sc_history 7 sc_init resignalled_port) <= 1)%nat.
Proof.
  assert (H : count_rounds relabelled (sc_history 7 sc_init resignalled_port) = 2%nat)
    by (vm_compute; reflexivity).
  split; [reflexivity|]. split; [exact H | rewrite H; lia].
Qed.

(** The entries into Continuation bound the relabels of that trial. *)
Lemma relabel_only_entering_continuation_witness :
  (count_rounds relabelled (sc_history 7 sc_init resignalled_port)
   <= count_rounds enters_continuation (sc_history 7 sc_init resignalled_port))%nat.
Proof.
  exact (proj2 (relabel_only_entering_continuation 7 resignalled_port)).
Defined.

(** C2, as stated, fails: the trace yields four taps, not three. *)
Lemma spec_trace_has_four_taps :
  ~ exists g ser,
      sc_tapping 4 600 leftovers spec_trace_port = Ret tt g ser
      /\ tap_types g = ["S"; "C"; "C"]%string.
Proof.
  intros (g & ser & Hrun & Htags).
  vm_compute in Hrun. inversion Hrun; subst. discriminate.
Qed.

(** C3, as stated, fails: with one tap tagged ["C"] the computation ends
    in an uncaught [ValueError]. *)
Lemma score_of_one_continuation_tap :
  cont_score one_continuation_tap (mkSerial [] [])
  = Raise ValueError one_continuation_tap (mkSerial [] []).
Proof. reflexivity. Qed.

(** The same record, through the general statement. *)
Lemma score_of_too_few_continuation_taps_witness :
  length (tap_types one_continuation_tap) = length (tap_times one_continuation_tap)
  /\ (length (continuation_times one_continuation_tap) < 2)%nat
  /\ cont_score one_continuation_tap (mkSerial [] [])
     = Raise ValueError one_continuation_tap (mkSerial [] []).
Proof.
  split; [reflexivity|]. split; [vm_compute; lia|].
  apply (score_of_too_few_continuation_taps one_continuation_tap (mkSerial [] []));
    [reflexivity | vm_compute; lia].
Defined.

(** A trial whose tapping leaves a single tap tagged ["C"] ends in the
    [ValueError] of the score. *)
Lemma trial_with_one_tap_crashes :
  sc_trial 4 600 leftovers
    (mkSerial (frame "S" (stamp_of_nat 1) ++ frame "T" (stamp_of_nat 2) ++
               frame "C" (stamp_of_nat 3) ++ ["I"%byte]) [])
  = Raise ValueError (mkVars "C" [1; 3] ["C"%string] [2] [])
      (mkSerial [] ["B"; "4"; "6"; "0"; "0"]%byte).
Proof. reflexivity. Qed.

(** C4, as stated, fails: a tap read before the first tone is tagged
    ["B"], and the trial completes with that tag in its record. *)
Lemma early_tap_is_tagged_B :
  sc_trial 4 600 leftovers early_tap_port
  = Ret 0 (mkVars "C" [8; 10] ["B"; "C"; "C"]%string [7; 9; 11] [])
      (mkSerial [] ["B"; "4"; "6"; "0"; "0"]%byte)
  /\ ~ Forall rhythm_tag ["B"; "C"; "C"]%string.
Proof.
  split; [reflexivity|].
  intros H. inversion H as [|? ? Htag _]; subst.
  destruct Htag; discriminate.
Qed.

(** The tags of that trial are among B, S and C, and a tap read while the
    phase is ["S"] is tagged ["S"]. *)
Lemma tap_tags_of_a_trial_witness :
  sc_tapping 4 600 leftovers early_tap_port
  = Ret tt (mkVars "C" [8; 10] ["B"; "C"; "C"]%string [7; 9; 11] [])
      (mkSerial [] ["B"; "4"; "6"; "0"; "0"]%byte)
  /\ Forall trial_tag ["B"; "C"; "C"]%string
  /\ sc_body (mkVars "S" [8] ["B"%string] [7] [])
       (mkSerial (frame "T" (stamp_of_nat 9) ++ ["I"%byte]) [])
     = Ret Next (mkVars "S" [8] ["B"; "S"]%string [7; 9] [])
         (mkSerial ["I"%byte] []).
Proof.
  split; [reflexivity|]. split.
  - exact (proj1 (proj2 (proj2
             (proj1 (proj2 (proj2 tap_tags_of_a_trial)) 4%N 600%N leftovers
                early_tap_port
                (mkVars "C" [8; 10] ["B"; "C"; "C"]%string [7; 9; 11] [])
                (mkSerial [] ["B"; "4"; "6"; "0"; "0"]%byte)
                (or_intror eq_refl))))).
  - exact (proj1 tap_tags_of_a_trial (mkVars "S" [8] ["B"%string] [7] [])
             (stamp_of_nat 9) ["I"%byte] []).
Defined.

(** C5, as stated, fails: numpy rounds at every step, and on these two
    records the number it cuts is on the other side of an integer than the
    exact deviation: the score is 43945441 where the exact deviation is cut
    to 43945440, and 267775009 where it is cut to 267775010. *)
Lemma score_is_not_the_exact_truncation :
  (cont_score rounded_up_taps (mkSerial [] [])
   = Ret 43945441 rounded_up_taps (mkSerial [] [])
   /\ np_diff (continuation_times rounded_up_taps) = [1000; 1000; 93223358]
   /\ truncated_population_sd [1000; 1000; 93223358] 43945440
   /\ ~ truncated_population_sd [1000; 1000; 93223358] 43945441)
  /\ (cont_score rounded_down_taps (mkSerial [] [])
      = Ret 267775009 rounded_down_taps (mkSerial [] [])
      /\ np_diff (continuation_times rounded_down_taps)
         = [669437732; 207; 207; 207; 207]
      /\ truncated_population_sd [669437732; 207; 207; 207; 207] 267775010
      /\ ~ truncated_population_sd [669437732; 207; 207; 207; 207] 267775009).
Proof.
  split.
  - split; [vm_compute; reflexivity|]. split; [reflexivity|].
    unfold truncated_population_sd. cbn [length map Zsum fold_right].
    split; [lia|]. intros H. lia.
  - split; [vm_compute; reflexivity|]. split; [reflexivity|].
    unfold truncated_population_sd. cbn [length map Zsum fold_right].
    split; [lia|]. intros H. lia.
Qed.

(** The example of the score on a record with six taps, four of them
    tagged ["C"]. *)
Lemma score_is_truncated_deviation_witness :
  length (tap_types four_continuation_taps) = length (tap_times four_continuation_taps)
  /\ continuation_times four_continuation_taps = [100; 300; 520; 740]
  /\ np_diff (continuation_times four_continuation_taps) = [200; 220; 220]
  /\ cont_score four_continuation_taps (mkSerial [] [])
     = Ret 9 four_continuation_taps (mkSerial [] [])
  /\ truncated_population_sd (np_diff (continuation_times four_continuation_taps)) 9.
Proof.
  split; [reflexivity|]. split; [reflexivity|].
  apply (proj1 score_is_truncated_deviation four_continuation_taps (mkSerial [] []));
    reflexivity.
Defined.

(** C6, as stated, fails: when the timestamp of a tap stops short, the
    trial waits forever with the tag of the tap appended and its time
    not. *)
Lemma tag_without_timestamp :
  sc_tapping 4 600 leftovers cut_short_port
  = Spin (mkVars "S" [1] ["S"%string] [] [])
      (mkSerial [] ["B"; "4"; "6"; "0"; "0"]%byte)
  /\ length ["S"%string] <> length (@nil Z).
Proof. split; [reflexivity | discriminate]. Qed.

(** A trial that completes hands over as many tags as timestamps. *)
Lemma tap_lists_aligned_between_rounds_witness :
  sc_tapping 4 600 leftovers spec_trace_port
  = Ret tt (mkVars "C" [1; 3; 5] ["S"; "C"; "C"; "C"]%string [2; 4; 6; 7] [])
      (mkSerial [] ["B"; "4"; "6"; "0"; "0"]%byte)
  /\ length ["S"; "C"; "C"; "C"]%string = length [2; 4; 6; 7].
Proof.
  split; [reflexivity|].
  apply (proj1 (tap_lists_aligned_between_rounds 4 600 leftovers
           (mkVars "C" [1; 3; 5] ["S"; "C"; "C"; "C"]%string [2; 4; 6; 7] [])
           spec_trace_port (mkSerial [] ["B"; "4"; "6"; "0"; "0"]%byte))).
  right. right. right. reflexivity.
Defined.

(** Handshake scenario A: the ack arrives during the second wait. *)
Lemma hello_ack_polling_witness :
  port_opens (mkWorld true [ready_banner] [[]; ["I"%byte]]) = true
  /\ In ready_banner (heard (startup (mkWorld true [ready_banner] [[]; ["I"%byte]])))
  /\ establish_connection (mkWorld true [ready_banner] [[]; ["I"%byte]])
     = (mkSession (Some LinkOpen) (mkSerial [] ["H"%byte]) true 2, Proceed).
Proof.
  assert (Hb : In ready_banner
                 (heard (startup (mkWorld true [ready_banner] [[]; ["I"%byte]]))))
    by (left; reflexivity).
  assert (Hq : quiet (replies (mkWorld true [ready_banner] [[]; ["I"%byte]])) 1).
  { intros [|j] Hj; [reflexivity | lia]. }
  split; [reflexivity|]. split; [exact Hb|].
  refine (proj2 (proj1 (proj2 (proj2
            (proj1 (hello_ack_polling (mkWorld true [ready_banner] [[]; ["I"%byte]])
                      eq_refl) Hb)))
            1%nat "I"%byte [] (mkSession None (mkSerial [] []) true 0) _ Hq eq_refl)).
  lia.
Defined.

(** Five taps among thirty releases, then one more tap: the session ends
    with the thirtieth release and the tap after it is dropped. *)
Lemma spr_task_stops_at_target_witness :
  Forall tap_or_release spr_before
  /\ length (stamps_of "R" spr_before) = pred nspr_taps
  /\ spr_task leftovers
       (mkSerial (frames spr_before ++ frame "R" (stamp_of_nat 4)
                  ++ frame "T" (stamp_of_nat 5)) [])
     = Ret tt
         (mkVars "C" [3; 5] (repeat "P"%string 5) (repeat 2 5)
            (repeat 1 24 ++ repeat 3 5 ++ [4]))
         (mkSerial [] ["P"; "I"]%byte).
Proof.
  assert (Hall : Forall tap_or_release spr_before).
  { unfold spr_before, tap_or_release. simpl.
    repeat (apply List.Forall_cons; [first [left; reflexivity | right; reflexivity]|]).
    apply List.Forall_nil. }
  split; [exact Hall|]. split; [reflexivity|].
  apply (proj1 spr_task_stops_at_target leftovers spr_before (stamp_of_nat 4)
           (frame "T" (stamp_of_nat 5)) [] Hall eq_refl).
Defined.

(** A tone and a release, then the ContinuationTone: the trial ends in
    [IndexError] with no tap recorded. *)
Lemma continuation_before_first_tap_witness :
  Forall tone_or_release [("S"%byte, stamp_of_nat 1); ("R"%byte, stamp_of_nat 2)]
  /\ exists g,
      sc_tapping 4 600 leftovers
        (mkSerial (frames [("S"%byte, stamp_of_nat 1); ("R"%byte, stamp_of_nat 2)]
                   ++ "C"%byte :: stamp_bytes (stamp_of_nat 3) ++ ["I"%byte]) [])
      = Raise IndexError g
          (mkSerial (stamp_bytes (stamp_of_nat 3) ++ ["I"%byte])
             ([] ++ "B"%byte :: format_i 4 ++ format_i 600))
      /\ tap_types g = [].
Proof.
  assert (H : Forall tone_or_release
                [("S"%byte, stamp_of_nat 1); ("R"%byte, stamp_of_nat 2)]).
  { unfold tone_or_release.
    repeat (apply List.Forall_cons; [first [left; reflexivity | right; reflexivity]|]).
    apply List.Forall_nil. }
  split; [exact H|].
  apply (proj2 (proj2 continuation_before_first_tap) 4%N 600%N leftovers _ _ [] H).
Defined.

(** * Further properties *)

(** ** The byte order of a timestamp *)

Lemma int_from_bytes_little_bounds (b : list byte) :
  0 <= int_from_bytes_little b < 256 ^ Z.of_nat (length b).
Proof.
  induction b as [|x b IH]; [simpl; lia|].
  cbn [int_from_bytes_little length]. rewrite Nat2Z.inj_succ, Z.pow_succ_r by lia.
  pose proof (Byte.to_N_bounded x) as Hx.
  assert (0 <= Z.of_N (Byte.to_N x) <= 255) by lia. lia.
Qed.

(** X1: the bytes of a timestamp weigh by their position, the first the
    least: the value of [a ++ b] is the value of [a] plus the value of [b]
    shifted past the bytes of [a]. *)
Theorem little_endian_append (a b : list byte) :
  int_from_bytes_little (a ++ b)
  = int_from_bytes_little a
    + 256 ^ Z.of_nat (length a) * int_from_bytes_little b.
Proof.
  induction a as [|x a IH]; [simpl; lia|].
  cbn [app int_from_bytes_little length].
  rewrite IH, Nat2Z.inj_succ, Z.pow_succ_r by lia. ring.
Qed.

Lemma byte_to_N_inj (x y : byte) : Byte.to_N x = Byte.to_N y -> x = y.
Proof.
  intros H. pose proof (Byte.of_to_N x) as Hx. pose proof (Byte.of_to_N y) as Hy.
  rewrite H in Hx. congruence.
Qed.

(** X2: two byte strings of the same length that decode to the same
    integer are the same string: the decoding loses nothing. *)
Theorem int_from_bytes_little_inj (a : list byte) :
  forall b,
    length a = length b ->
    int_from_bytes_little a = int_from_bytes_little b ->
    a = b.
Proof.
  induction a as [|x a IH]; intros [|y b] Hlen Hval; simpl in Hlen;
    try discriminate; [reflexivity|].
  cbn [int_from_bytes_little] in Hval.
  pose proof (Byte.to_N_bounded x). pose proof (Byte.to_N_bounded y).
  assert (Hxy : Z.of_N (Byte.to_N x) = Z.of_N (Byte.to_N y)) by lia.
  assert (Hab : int_from_bytes_little a = int_from_bytes_little b) by lia.
  f_equal.
  - apply byte_to_N_inj. lia.
  - apply IH; [lia | exact Hab].
Qed.

(** ** What [read_timestamp] takes from the port *)

Lemma recv_exact (bs : list byte) :
  forall acc g rest out,
    recv (length bs) acc g (mkSerial (bs ++ rest) out)
    = Ret (acc ++ bs) g (mkSerial rest out).
Proof.
  induction bs as [|b bs IH]; intros acc g rest out.
  - simpl. rewrite app_nil_r. reflexivity.
  - cbn [length recv]. unfold bind, await_byte, ser_read. cbn [rx tx app].
    rewrite IH, <- app_assoc. reflexivity.
Qed.

Lemma recv_starved (k : nat) :
  forall acc g ser,
    (length (rx ser) < k)%nat ->
    recv k acc g ser = Spin g (mkSerial [] (tx ser)).
Proof.
  induction k as [|k IH]; intros acc g ser Hlen; [lia|].
  cbn [recv]. unfold bind, await_byte, ser_read.
  destruct ser as [[|b r] o]; cbn [rx tx] in *; [reflexivity|].
  rewrite IH by (simpl in *; lia). reflexivity.
Qed.

Lemma read_timestamp_exact (bs rest out : list byte) (g : vars) :
  read_timestamp (length bs) g (mkSerial (bs ++ rest) out)
  = Ret (int_from_bytes_little bs) g (mkSerial rest out).
Proof. unfold read_timestamp, bind. rewrite recv_exact. reflexivity. Qed.

(** X3: with [nbytes] bytes or more in the buffer, [read_timestamp] takes
    exactly the first [nbytes], returns their little-endian value, a number
    below [256 ^ nbytes], and leaves the rest of the buffer, the bytes
    written and the globals as they were. *)
Theorem read_timestamp_takes_nbytes (bs rest out : list byte) (g : vars) :
  read_timestamp (length bs) g (mkSerial (bs ++ rest) out)
  = Ret (int_from_bytes_little bs) g (mkSerial rest out)
  /\ 0 <= int_from_bytes_little bs < 256 ^ Z.of_nat (length bs).
Proof.
  split; [apply read_timestamp_exact | apply int_from_bytes_little_bounds].
Qed.

(** X4: with fewer than [nbytes] bytes to come, [read_timestamp] never
    returns: it has taken the bytes there were and waits for the others,
    the globals untouched. *)
Theorem read_timestamp_starves (nbytes : nat) (g : vars) (ser : serial) :
  (in_waiting ser < nbytes)%nat ->
  read_timestamp nbytes g ser = Spin g (mkSerial [] (tx ser)).
Proof.
  intros H. unfold read_timestamp, bind. rewrite recv_starved by exact H.
  reflexivity.
Qed.

(** X5: a timestamp read from four bytes is an unsigned 32-bit number. *)
Theorem read_timestamp_u32 (g g' : vars) (ser ser' : serial) (t : Z) :
  read_timestamp 4 g ser = Ret t g' ser' ->
  0 <= t < 2 ^ 32.
Proof.
  intros H. destruct ser as [[|a [|b [|c [|d r]]]] o]; try discriminate.
  pose proof (read_timestamp_exact [a; b; c; d] r o g) as E.
  cbn [length app] in E. rewrite E in H. inversion H; subst.
  pose proof (int_from_bytes_little_bounds [a; b; c; d]) as Hb.
  simpl length in Hb. exact Hb.
Qed.

(** ** The trial loop as a decoder of frames *)

Lemma sc_loop_round (g g' : vars) (ser ser' : serial) :
  sc_body g ser = Ret Next g' ser' -> sc_loop g ser = sc_loop g' ser'.
Proof.
  intros E. unfold sc_loop at 1. cbn [sc_while]. rewrite E.
  apply sc_loop_any_fuel. apply sc_body_shorter in E. unfold in_waiting. lia.
Qed.

Lemma sc_body_junk (g : vars) (b : byte) (rest out : list byte) :
  is_trial_tag b = false ->
  sc_body g (mkSerial (b :: rest) out) = Ret Next g (mkSerial rest out).
Proof.
  unfold is_trial_tag. intros H.
  repeat (apply orb_false_iff in H; destruct H as [H ?]).
  unfold sc_body, bind, await_byte, ser_read. cbn [rx tx].
  repeat match goal with E : Byte.eqb b _ = false |- _ => rewrite E; clear E end.
  reflexivity.
Qed.

(** X6: a byte that is none of the five tags is read and dropped: the loop
    of a trial goes on as if the byte had not been sent, and raises no
    error for it. *)
Theorem sc_loop_skips_unknown_bytes (junk rest out : list byte) (g : vars) :
  Forall (fun b => is_trial_tag b = false) junk ->
  sc_loop g (mkSerial (junk ++ rest) out) = sc_loop g (mkSerial rest out).
Proof.
  induction 1 as [|b junk Hb _ IH]; [reflexivity|].
  cbn [app]. rewrite (sc_loop_round _ _ _ _ (sc_body_junk g b _ out Hb)).
  exact IH.
Qed.

Lemma sc_body_C (g : vars) (s : stamp) (more out : list byte) :
  tap_types g <> [] ->
  sc_body g (mkSerial (frame "C" s ++ more) out)
  = Ret Next
      (set_tone_times (tone_times g ++ [stamp_value s])
         (set_phase "C"
            (set_tap_types
               (<[pred (length (tap_types g)) := "C"%string]> (tap_types g)) g)))
      (mkSerial more out).
Proof.
  intros Hne. destruct s as [[[? ?] ?] ?].
  unfold sc_body, bind, await_byte, ser_read, get, lift, assign. cbn [rx tx frame stamp_bytes app].
  simpl. destruct (tap_types g) as [|x l] eqn:E; [congruence|]. reflexivity.
Qed.

Lemma sc_body_I (g : vars) (later out : list byte) :
  sc_body g (mkSerial ("I"%byte :: later) out) = Ret Break g (mkSerial [] out).
Proof. reflexivity. Qed.

Lemma sc_body_frame (g : vars) (tag : byte) (s : stamp) (more out : list byte) :
  known_frame (tag, s) ->
  (tap_types g <> [] \/ tag <> "C"%byte) ->
  sc_body g (mkSerial (frame tag s ++ more) out)
  = Ret Next (apply_frame g (tag, s)) (mkSerial more out).
Proof.
  unfold known_frame. cbn [fst]. intros [-> | [-> | [-> | ->]]] Hsafe.
  - apply sc_body_S.
  - destruct Hsafe as [Hne | Hne]; [|congruence]. apply sc_body_C. exact Hne.
  - apply sc_body_T.
  - apply sc_body_R.
Qed.

Lemma apply_frame_tap_types (g : vars) (ev : byte * stamp) :
  tap_types g <> [] -> tap_types (apply_frame g ev) <> [].
Proof.
  intros Hne. unfold apply_frame.
  destruct (Byte.eqb (fst ev) "S"); [exact Hne|].
  destruct (Byte.eqb (fst ev) "C").
  - cbn. intros H. apply (f_equal length) in H. rewrite length_insert in H.
    destruct (tap_types g); [congruence | discriminate].
  - destruct (Byte.eqb (fst ev) "T").
    + cbn. destruct (tap_types g); discriminate.
    + destruct (Byte.eqb (fst ev) "R"); exact Hne.
Qed.

(** Frames cost one round each, as long as the relabel finds a tap. *)
Lemma sc_loop_frames (evs : list (byte * stamp)) :
  Forall known_frame evs ->
  forall g more out,
    (tap_types g <> [] \/ tap_before_continuation evs = true) ->
    sc_loop g (mkSerial (frames evs ++ more) out)
    = sc_loop (sc_after g evs) (mkSerial more out).
Proof.
  induction 1 as [|[tag s] evs Hev _ IH]; intros g more out Hsafe; [reflexivity|].
  rewrite frames_cons, <- app_assoc.
  assert (Hnow : tap_types g <> [] \/ tag <> "C"%byte).
  { destruct Hsafe as [Hne | Hb]; [left; exact Hne|].
    cbn [tap_before_continuation fst] in Hb.
    destruct (Byte.eqb tag "T") eqn:ET.
    - apply Byte.byte_dec_bl in ET. subst. right. discriminate.
    - destruct (Byte.eqb tag "C") eqn:EC; [discriminate|].
      right. intros ->. discriminate. }
  rewrite (sc_loop_round _ _ _ _ (sc_body_frame g tag s _ out Hev Hnow)).
  cbn [sc_after fold_left]. apply IH.
  destruct Hsafe as [Hne | Hb]; [left; apply apply_frame_tap_types; exact Hne|].
  cbn [tap_before_continuation fst] in Hb.
  destruct (Byte.eqb tag "T") eqn:ET.
  - left. apply Byte.byte_dec_bl in ET. subst. unfold apply_frame. cbn.
    destruct (tap_types g); discriminate.
  - destruct (Byte.eqb tag "C") eqn:EC; [discriminate|]. right. exact Hb.
Qed.

Lemma sc_after_snoc (g : vars) (evs : list (byte * stamp)) (ev : byte * stamp) :
  sc_after g (evs ++ [ev]) = apply_frame (sc_after g evs) ev.
Proof. unfold sc_after. rewrite fold_left_app. reflexivity. Qed.

Lemma stamps_of_snoc (tag : byte) (evs : list (byte * stamp)) (ev : byte * stamp) :
  stamps_of tag (evs ++ [ev])
  = stamps_of tag evs
    ++ (if Byte.eqb (fst ev) tag then [stamp_value (snd ev)] else []).
Proof.
  unfold stamps_of. rewrite filter_app, map_app. f_equal.
  rewrite filter_cons, filter_nil.
  destruct (Byte.eqb (fst ev) tag); destruct (decide _); try congruence; reflexivity.
Qed.

Lemma tone_stamps_snoc (evs : list (byte * stamp)) (ev : byte * stamp) :
  tone_stamps (evs ++ [ev])
  = tone_stamps evs
    ++ (if Byte.eqb (fst ev) "S" || Byte.eqb (fst ev) "C"
        then [stamp_value (snd ev)] else []).
Proof.
  unfold tone_stamps. rewrite filter_app, map_app. f_equal.
  rewrite filter_cons, filter_nil.
  destruct (Byte.eqb (fst ev) "S" || Byte.eqb (fst ev) "C");
    destruct (decide _); try congruence; reflexivity.
Qed.

(** What the frames leave in the four lists. *)
Lemma sc_after_lists (g : vars) (evs : list (byte * stamp)) :
  tone_times (sc_after g evs) = tone_times g ++ tone_stamps evs
  /\ tap_times (sc_after g evs) = tap_times g ++ stamps_of "T" evs
  /\ release_times (sc_after g evs) = release_times g ++ stamps_of "R" evs
  /\ length (tap_types (sc_after g evs))
     = (length (tap_types g) + length (stamps_of "T" evs))%nat.
Proof.
  induction evs as [|ev evs IH] using rev_ind.
  - cbn. rewrite !app_nil_r. repeat split; lia.
  - destruct IH as (Htone & Htap & Hrel & Hlen).
    rewrite sc_after_snoc, tone_stamps_snoc, !stamps_of_snoc.
    unfold apply_frame. destruct ev as [tag s]. cbn [fst snd].
    destruct (Byte.eqb tag "S") eqn:ES.
    { apply Byte.byte_dec_bl in ES. subst tag. cbn.
      rewrite Htone, Htap, Hrel, Hlen, <- !app_assoc, !app_nil_r.
      repeat split; lia. }
    destruct (Byte.eqb tag "C") eqn:EC.
    { apply Byte.byte_dec_bl in EC. subst tag. cbn.
      rewrite length_insert, Htone, Htap, Hrel, Hlen, <- !app_assoc, !app_nil_r.
      repeat split; lia. }
    destruct (Byte.eqb tag "T") eqn:ET.
    { apply Byte.byte_dec_bl in ET. subst tag. cbn.
      rewrite !length_app, Htone, Htap, Hrel, Hlen, <- !app_assoc, !app_nil_r.
      cbn. repeat split; lia. }
    destruct (Byte.eqb tag "R") eqn:ER.
    { apply Byte.byte_dec_bl in ER. subst tag. cbn.
      rewrite Htone, Htap, Hrel, Hlen, <- !app_assoc, !app_nil_r.
      repeat split; lia. }
    cbn. rewrite Htone, Htap, Hrel, Hlen, !app_nil_r. repeat split; lia.
Qed.

(** X7: on frames tagged S, C, T or R with a tap before the first
    ContinuationTone, closed by the I tag, a trial returns with every
    timestamp in its list, in the order sent: the tones in [tone_times],
    the taps in [tap_times] with one tag each, the releases in
    [release_times].  The timestamp bytes are never taken for tags, and
    what follows the I tag is dropped. *)
Theorem sc_tapping_decodes_frames
    (octave ioi : N) (g0 : vars) (evs : list (byte * stamp))
    (later out : list byte) :
  Forall known_frame evs ->
  tap_before_continuation evs = true ->
  exists g,
    sc_tapping octave ioi g0 (mkSerial (frames evs ++ "I"%byte :: later) out)
    = Ret tt g (mkSerial [] (out ++ "B"%byte :: format_i octave ++ format_i ioi))
    /\ tone_times g = tone_stamps evs
    /\ tap_times g = stamps_of "T" evs
    /\ release_times g = stamps_of "R" evs
    /\ length (tap_types g) = length (tap_times g).
Proof.
  intros Hevs Hsafe. exists (sc_after sc_init evs).
  destruct (sc_after_lists sc_init evs) as (Htone & Htap & Hrel & Hlen).
  repeat split; try assumption.
  - rewrite sc_tapping_loop. unfold written. cbn [rx tx].
    rewrite sc_loop_frames by (try exact Hevs; right; exact Hsafe).
    unfold sc_loop. cbn [sc_while in_waiting rx]. rewrite sc_body_I. reflexivity.
  - rewrite Hlen, Htap. reflexivity.
Qed.

(** X8: when the frames stop without the I tag, the trial does not return,
    however long it waits: it holds what it has decoded so far and goes on
    polling the empty buffer. *)
Theorem sc_tapping_waits_for_trial_end
    (octave ioi : N) (g0 : vars) (evs : list (byte * stamp)) (out : list byte) :
  Forall known_frame evs ->
  tap_before_continuation evs = true ->
  exists g,
    sc_tapping octave ioi g0 (mkSerial (frames evs) out)
    = Spin g (mkSerial [] (out ++ "B"%byte :: format_i octave ++ format_i ioi))
    /\ tone_times g = tone_stamps evs
    /\ tap_times g = stamps_of "T" evs
    /\ release_times g = stamps_of "R" evs.
Proof.
  intros Hevs Hsafe. exists (sc_after sc_init evs).
  destruct (sc_after_lists sc_init evs) as (Htone & Htap & Hrel & Hlen).
  repeat split; try assumption.
  rewrite sc_tapping_loop. unfold written. cbn [rx tx].
  rewrite <- (app_nil_r (frames evs)).
  rewrite sc_loop_frames by (try exact Hevs; right; exact Hsafe).
  reflexivity.
Qed.

(** ** What a trial never loses *)

Lemma extends_refl (g : vars) : extends g g.
Proof. unfold extends. repeat split; try reflexivity. intros i ty H. left. exact H. Qed.

Lemma extends_trans (g g' g'' : vars) :
  extends g g' -> extends g' g'' -> extends g g''.
Proof.
  unfold extends. intros (Ha & Hb & Hc & Hd) (Ha' & Hb' & Hc' & Hd').
  repeat split; try (etransitivity; eassumption).
  intros i ty Hi. destruct (Hd i ty Hi) as [H | H].
  - apply Hd'. exact H.
  - right. destruct (Hd' i _ H) as [H' | H']; exact H'.
Qed.

Lemma extends_relabel (g : vars) (x : string) (l : list string) :
  tap_types g = x :: l ->
  forall i ty,
    tap_types g !! i = Some ty ->
    <[length l := "C"%string]> (x :: l) !! i = Some ty
    \/ <[length l := "C"%string]> (x :: l) !! i = Some "C"%string.
Proof.
  intros E i ty Hi. rewrite E in Hi.
  destruct (decide (i = length l)) as [-> | Hne].
  - right. apply list_lookup_insert_eq. simpl. lia.
  - left. rewrite list_lookup_insert_ne by congruence. exact Hi.
Qed.

Ltac keep_lists :=
  simpl; unfold extends;
  repeat match goal with H : _ /\ _ |- _ => destruct H end; subst;
  cbn [tone_times tap_times release_times tap_types
       set_phase set_tone_times set_tap_types set_tap_times set_release_times];
  repeat split;
  try reflexivity;
  try (eexists; reflexivity);
  try (intros i ty Hi; left; exact Hi).

Lemma sc_body_extends (g : vars) (ser : serial) :
  holds_after (extends g) (extends g) (sc_body g ser).
Proof.
  remember (sc_body g ser) as r eqn:H. symmetry in H.
  body_cases H.
  all: try relabel_cases H.
  all: try read_cases H.
  all: subst r; keep_lists.
  all: try (intros i ty Hi; apply (extends_relabel g); assumption).
  all: intros i ty Hi; left; apply lookup_app_l_Some; exact Hi.
Qed.

(** X9: a trial never drops or reorders what it has recorded.  From one
    loop head to any later one, and to wherever the loop returns, stalls or
    raises, the three lists of timestamps grow only at their end, and every
    tag is still in its place, unchanged or turned into ["C"]. *)
Theorem recorded_data_is_kept (g0 g : vars) (ser0 ser : serial) :
  sc_reach g0 ser0 g ser \/ sc_loop g0 ser0 = Ret tt g ser \/
  sc_loop g0 ser0 = Spin g ser \/ (exists e, sc_loop g0 ser0 = Raise e g ser) ->
  tone_times g0 `prefix_of` tone_times g
  /\ tap_times g0 `prefix_of` tap_times g
  /\ release_times g0 `prefix_of` release_times g
  /\ forall i ty,
       tap_types g0 !! i = Some ty ->
       tap_types g !! i = Some ty \/ tap_types g !! i = Some "C"%string.
Proof.
  assert (Hkeep : forall g' ser',
             extends g0 g' ->
             holds_after (extends g0) (extends g0) (sc_body g' ser')).
  { intros g' ser' Hg'. pose proof (sc_body_extends g' ser') as Hb.
    destruct (sc_body g' ser'); simpl in *; try exact I;
      eapply extends_trans; eassumption. }
  pose proof (sc_loop_inv (extends g0) (extends g0) Hkeep g0 ser0
                (extends_refl g0)) as Hloop.
  intros [H | [H | [H | [e H]]]].
  - exact (sc_reach_inv (extends g0) (extends g0) Hkeep g0 g ser0 ser
             (extends_refl g0) H).
  - rewrite H in Hloop. exact Hloop.
  - rewrite H in Hloop. exact Hloop.
  - rewrite H in Hloop. exact Hloop.
Qed.

(** ** The tap-counting task on any input *)

(** What one round of the tap-counting loop can do to the globals and the
    port. *)
Lemma spr_body_effect (g g' : vars) (ser ser' : serial) :
  spr_body g ser = Ret tt g' ser' ->
  phase g' = phase g /\ tone_times g' = tone_times g
  /\ (Forall (eq "P"%string) (tap_types g) -> Forall (eq "P"%string) (tap_types g'))
  /\ (length (release_times g') <= S (length (release_times g)))%nat
  /\ tx ser' = tx ser.
Proof.
  intros H. body_cases H.
  all: try read_cases H.
  all: inversion H; subst; clear H.
  all: repeat match goal with H : _ /\ _ |- _ => destruct H end; subst.
  all: cbn; rewrite ?length_app; cbn.
  all: repeat split; try lia; try assumption; try (intros Hall; exact Hall).
  intros Hall. apply Forall_app. split; [exact Hall | constructor; [reflexivity | constructor]].
Qed.

Lemma spr_while_effect (fuel : nat) :
  forall g ser g' ser',
    (length (release_times g) <= nspr_taps)%nat ->
    Forall (eq "P"%string) (tap_types g) ->
    spr_while fuel g ser = Ret tt g' ser' ->
    length (release_times g') = nspr_taps
    /\ Forall (eq "P"%string) (tap_types g')
    /\ phase g' = phase g /\ tone_times g' = tone_times g
    /\ tx ser' = tx ser.
Proof.
  induction fuel as [|fuel IH]; intros g ser g' ser' Hle Hall H; simpl in H;
    [discriminate|].
  destruct (length (release_times g) <? nspr_taps)%nat eqn:Hlt.
  - apply Nat.ltb_lt in Hlt.
    destruct (spr_body g ser) as [[] g1 ser1| | |] eqn:E; try discriminate.
    destruct (spr_body_effect _ _ _ _ E) as (Hp & Ht & Hty & Hrel & Htx).
    assert (Hle1 : (length (release_times g1) <= nspr_taps)%nat) by lia.
    destruct (IH _ _ _ _ Hle1 (Hty Hall) H) as (H1 & H2 & H3 & H4 & H5).
    repeat split; try assumption; congruence.
  - apply Nat.ltb_ge in Hlt. inversion H; subst.
    repeat split; try assumption; lia.
Qed.

(** X10: whatever the device sends, when the tap-counting task returns it
    has recorded exactly 30 releases, every tap it recorded is tagged
    ["P"], the phase and the tone times are as it found them, it has
    written the start byte and the stop byte and nothing else, and the
    input buffer is empty. *)
Theorem spr_task_postcondition (g0 g : vars) (ser0 ser : serial) :
  spr_task g0 ser0 = Ret tt g ser ->
  length (release_times g) = nspr_taps
  /\ Forall (eq "P"%string) (tap_types g)
  /\ phase g = phase g0 /\ tone_times g = tone_times g0
  /\ ser = mkSerial [] (tx ser0 ++ ["P"; "I"]%byte).
Proof.
  rewrite spr_task_loop. intros H.
  destruct (spr_loop (spr_init g0) (written ["P"%byte] ser0)) as [[] g1 ser1| | |] eqn:E;
    inversion H; subst; clear H.
  unfold spr_loop in E.
  apply spr_while_effect in E; [|cbn; unfold nspr_taps; lia|constructor].
  destruct E as (H1 & H2 & H3 & H4 & H5).
  repeat split; try assumption.
  unfold flushed, written. cbn [rx tx]. rewrite H5. cbn [written tx].
  rewrite <- app_assoc. reflexivity.
Qed.

Lemma spr_while_no_raise (fuel : nat) :
  forall g ser e g' ser', spr_while fuel g ser <> Raise e g' ser'.
Proof.
  induction fuel as [|fuel IH]; intros g ser e g' ser' H; simpl in H;
    [discriminate|].
  destruct (_ <? _)%nat; [|discriminate].
  destruct (spr_body g ser) as [[] g1 ser1| | |] eqn:E; try discriminate.
  - eapply IH; eassumption.
  - eapply spr_body_no_raise; eassumption.
Qed.

(** X11: the tap-counting task raises nothing, whatever the device sends:
    it returns or it waits. *)
Theorem spr_task_never_raises (g0 g : vars) (ser0 ser : serial) (e : pyexn) :
  spr_task g0 ser0 <> Raise e g ser.
Proof.
  rewrite spr_task_loop. intros H.
  destruct (spr_loop (spr_init g0) (written ["P"%byte] ser0)) as [[] g1 ser1| | |] eqn:E;
    try discriminate.
  eapply spr_while_no_raise; eassumption.
Qed.

Lemma spr_loop_round (g g' : vars) (ser ser' : serial) :
  (length (release_times g) < nspr_taps)%nat ->
  spr_body g ser = Ret tt g' ser' -> spr_loop g ser = spr_loop g' ser'.
Proof.
  intros Hlt E. unfold spr_loop at 1. rewrite spr_while_round by exact Hlt.
  rewrite E. apply spr_loop_any_fuel. apply spr_body_shorter in E.
  unfold in_waiting. lia.
Qed.

Lemma spr_body_junk (g : vars) (b : byte) (rest out : list byte) :
  is_spr_tag b = false ->
  spr_body g (mkSerial (b :: rest) out) = Ret tt g (mkSerial rest out).
Proof.
  unfold is_spr_tag. intros H. apply orb_false_iff in H. destruct H as [HT HR].
  unfold spr_body, bind, await_byte, ser_read. cbn [rx tx]. rewrite HT, HR.
  reflexivity.
Qed.

(** X12: while releases are still missing, the tap-counting loop reads
    and drops every byte that is neither T nor R, the tags S, C and I of
    the other task among them, and goes on as if it had not been sent. *)
Theorem spr_loop_skips_other_bytes (junk rest out : list byte) (g : vars) :
  (length (release_times g) < nspr_taps)%nat ->
  Forall (fun b => is_spr_tag b = false) junk ->
  spr_loop g (mkSerial (junk ++ rest) out) = spr_loop g (mkSerial rest out).
Proof.
  intros Hlt. induction 1 as [|b junk Hb _ IH]; [reflexivity|].
  cbn [app]. rewrite (spr_loop_round _ _ _ _ Hlt (spr_body_junk g b _ out Hb)).
  exact IH.
Qed.

(** ** The handshake from end to end *)

(** X13: the banner loop reads lines up to the first empty one and no
    further; it collects exactly those lines, in order, and finds the
    device ready exactly when one of them is the banner, whole and alone on
    its line. *)
Theorem read_startup_result (lines : list (list byte)) :
  snd (read_startup lines false []) = concat (heard lines)
  /\ (fst (read_startup lines false []) = true <-> In ready_banner (heard lines)).
Proof.
  rewrite read_startup_heard. cbn [fst snd orb app]. split; [reflexivity|].
  apply banner_heard.
Qed.

(** X14: the handshake lets the experiment proceed exactly when the port
    opens, a line of the startup text is the banner, and the first byte to
    arrive within five waits after the hello is the ack [I]. *)
Theorem handshake_proceeds_iff (w : world) :
  snd (establish_connection w) = Proceed
  <-> port_opens w = true
      /\ In ready_banner (heard (startup w))
      /\ exists k rest,
           (k < 5)%nat /\ quiet (replies w) k
           /\ nth k (replies w) [] = "I"%byte :: rest.
Proof.
  unfold establish_connection. rewrite connect_cases.
  destruct (port_opens w); [|split; [discriminate | intros [? _]; discriminate]].
  rewrite <- banner_heard.
  destruct (existsb _ _);
    [|split; [discriminate | intros (_ & ? & _); discriminate]].
  change (written ["H"%byte] (flushed (port (mkSession None (mkSerial [] []) true 0))))
    with (mkSerial [] ["H"%byte]).
  set (ser := mkSerial [] ["H"%byte]).
  assert (Hrx : rx ser = []) by reflexivity.
  destruct (first_reply_or_silence 5 (replies w)) as [Hq | (k & b & rest & Hk & Hq & Hn)].
  - rewrite (poll_ack_silence 5 _ _ Hrx Hq). cbn. split; [discriminate|].
    intros (_ & _ & k & rest & Hk & _ & Hn). rewrite (Hq k Hk) in Hn. discriminate.
  - rewrite (poll_ack_reply 5 _ _ k b rest Hrx Hk Hq Hn). unfold ack_result.
    destruct (Byte.eqb b "I") eqn:Eb; cbn.
    + apply Byte.byte_dec_bl in Eb. subst b. split; [|reflexivity].
      intros _. repeat split. exists k, rest. auto.
    + split; [discriminate|].
      intros (_ & _ & k' & rest' & Hk' & Hq' & Hn').
      assert (k' = k).
      { destruct (Nat.lt_trichotomy k' k) as [Hlt | [Heq | Hgt]]; [|exact Heq|].
        - rewrite (Hq k' Hlt) in Hn'. discriminate.
        - rewrite (Hq' k Hgt) in Hn. discriminate. }
      subst k'. rewrite Hn in Hn'. inversion Hn'; subst.
      rewrite (Byte.byte_dec_lb (x := "I"%byte) eq_refl) in Eb. discriminate.
Qed.

(** X15: when the port opens but no line of the startup text is the
    banner, the handshake fails with the text it has read, before the hello
    byte: nothing is written and no second is spent waiting, and the
    handler closes the link and the window and quits. *)
Theorem banner_failure_sends_nothing (w : world) (s : session) :
  port_opens w = true ->
  ~ In ready_banner (heard (startup w)) ->
  connect w s
  = (mkSession (Some LinkOpen) (port s) (win_open s) (waited s),
     Some (UnexpectedBanner (concat (heard (startup w)))))
  /\ establish_connection w
     = (mkSession (Some LinkClosed) (mkSerial [] []) false 0, Quit).
Proof.
  intros Hopen Hno. rewrite <- banner_heard in Hno.
  apply not_true_is_false in Hno.
  unfold establish_connection. rewrite !connect_cases, Hopen, Hno.
  split; reflexivity.
Qed.

(** X16: the hello byte is all the handshake ever writes, and it writes it
    exactly when the port has opened and the banner has been read. *)
Theorem handshake_writes_hello_only (w : world) :
  tx (port (fst (establish_connection w)))
  = if port_opens w
       && existsb (fun m => bytes_eqb m ready_banner) (heard (startup w))
    then ["H"%byte] else [].
Proof.
  unfold establish_connection. rewrite connect_cases.
  destruct (port_opens w); [|reflexivity]. cbn [andb].
  destruct (existsb _ _); [|reflexivity].
  change (written ["H"%byte] (flushed (port (mkSession None (mkSerial [] []) true 0))))
    with (mkSerial [] ["H"%byte]).
  pose proof (poll_ack_tx 5 (mkSerial [] ["H"%byte]) (replies w)) as Htx.
  destruct (poll_ack 5 _ _) as [[ser n] [e|]]; cbn in *; exact Htx.
Qed.

(** ** The order of the trials *)

Lemma main_blocks_shape (shuffle_block : nat -> list (N * N) -> list (N * N))
    (start n : nat) :
  (forall b l, Permutation (shuffle_block b l) l) ->
  exists main : list (list trial),
    flat_map
      (fun block =>
         map (fun t => mkTrial (fst t) (snd t) "trial")
             (shuffle_block block block_trials))
      (seq start n)
    = concat main
    /\ length main = n
    /\ Forall (fun blk =>
                 Permutation (map condition_of blk) block_trials
                 /\ Forall (fun t => event t = "trial"%string) blk) main.
Proof.
  intros Hperm. revert start. induction n as [|n IH]; intros start.
  - exists []. repeat split. constructor.
  - destruct (IH (S start)) as (main & Heq & Hlen & Hall).
    exists (map (fun t => mkTrial (fst t) (snd t) "trial")
                (shuffle_block start block_trials) :: main).
    cbn [seq flat_map concat length]. rewrite Heq, Hlen.
    repeat split. constructor; [|exact Hall]. split.
    + rewrite map_map. unfold condition_of. cbn [octave ioi].
      rewrite (map_ext _ (fun x => x)) by (intros [? ?]; reflexivity).
      rewrite map_id. apply Hperm.
    + apply Forall_map. apply Forall_forall. intros; reflexivity.
Qed.

(** X17: whatever the shuffles do, as long as they permute, the order
    has the six practice trials first, one for each octave at the practice
    interval of 500, and then five blocks, each holding every pair of
    octave and interval exactly twice: 126 trials in all. *)
Theorem trial_order_structure
    (shuffle_practice : list N -> list N)
    (shuffle_block : nat -> list (N * N) -> list (N * N)) :
  (forall l, Permutation (shuffle_practice l) l) ->
  (forall b l, Permutation (shuffle_block b l) l) ->
  exists (practice : list trial) (main : list (list trial)),
    trial_order shuffle_practice shuffle_block = practice ++ concat main
    /\ Permutation (map octave practice) octaves
    /\ Forall (fun t => ioi t = practice_ioi /\ event t = "practice"%string) practice
    /\ length main = blocks
    /\ Forall (fun blk =>
                 Permutation (map condition_of blk) (conditions ++ conditions)
                 /\ Forall (fun t => event t = "trial"%string) blk) main
    /\ length (trial_order shuffle_practice shuffle_block) = 126%nat.
Proof.
  intros Hp Hb.
  destruct (main_blocks_shape shuffle_block 0 blocks Hb) as (main & Heq & Hlen & Hall).
  exists (map (fun o => mkTrial o practice_ioi "practice") (shuffle_practice octaves)), main.
  assert (Hblock : block_trials = conditions ++ conditions).
  { unfold block_trials. cbn [repeat repetitions_per_block concat].
    rewrite app_nil_r. reflexivity. }
  rewrite Hblock in Hall.
  repeat split.
  - unfold trial_order. rewrite Heq. reflexivity.
  - rewrite map_map. cbn [octave]. rewrite map_id. apply Hp.
  - apply Forall_map. apply Forall_forall. intros; split; reflexivity.
  - exact Hlen.
  - exact Hall.
  - unfold trial_order. rewrite Heq, length_app, length_map.
    rewrite (Permutation_length (Hp octaves)).
    assert (Hmain : forall m : list (list trial),
               Forall (fun blk =>
                         Permutation (map condition_of blk) (conditions ++ conditions)
                         /\ Forall (fun t => event t = "trial"%string) blk) m ->
               length (concat m) = (24 * length m)%nat).
    { induction 1 as [|blk m [Hblk _] _ IHm]; [reflexivity|].
      cbn [concat length]. rewrite length_app, IHm.
      apply Permutation_length in Hblk. rewrite length_map in Hblk.
      rewrite Hblk. cbn. lia. }
    rewrite (Hmain main Hall), Hlen. reflexivity.
Qed.

Lemma trial_order_values
    (shuffle_practice : list N -> list N)
    (shuffle_block : nat -> list (N * N) -> list (N * N)) (t : trial) :
  (forall l, Permutation (shuffle_practice l) l) ->
  (forall b l, Permutation (shuffle_block b l) l) ->
  In t (trial_order shuffle_practice shuffle_block) ->
  In (octave t) octaves /\ In (ioi t) [400; 500; 600]%N.
Proof.
  intros Hp Hb Hin. unfold trial_order in Hin.
  apply in_app_or in Hin. destruct Hin as [Hin | Hin].
  - apply in_map_iff in Hin. destruct Hin as (o & <- & Ho). cbn [octave ioi].
    split; [|cbn; auto].
    eapply Permutation_in; [apply Hp | exact Ho].
  - apply in_flat_map in Hin. destruct Hin as (b & _ & Hin).
    apply in_map_iff in Hin. destruct Hin as ([o i] & <- & Hoi). cbn [octave ioi fst snd].
    apply (Permutation_in _ (Hb b block_trials)) in Hoi.
    unfold block_trials in Hoi. cbn [repeat repetitions_per_block concat] in Hoi.
    rewrite app_nil_r in Hoi.
    assert (Hc : In (o, i) conditions)
      by (apply in_app_or in Hoi; destruct Hoi; assumption).
    unfold conditions in Hc. apply in_prod_iff in Hc. destruct Hc as [Ho Hi].
    split; [exact Ho|]. cbn in Hi. cbn. intuition.
Qed.

(** X18: for every trial of the order the begin command is five bytes:
    [B], one digit for the octave and three digits for the interval, the
    width the device reads. *)
Theorem begin_command_is_five_bytes
    (shuffle_practice : list N -> list N)
    (shuffle_block : nat -> list (N * N) -> list (N * N)) (t : trial) :
  (forall l, Permutation (shuffle_practice l) l) ->
  (forall b l, Permutation (shuffle_block b l) l) ->
  In t (trial_order shuffle_practice shuffle_block) ->
  length (format_i (octave t)) = 1%nat
  /\ length (format_i (ioi t)) = 3%nat
  /\ length (begin_command t) = 5%nat.
Proof.
  intros Hp Hb Hin.
  destruct (trial_order_values _ _ t Hp Hb Hin) as [Ho Hi].
  unfold begin_command. cbn [length]. rewrite length_app.
  assert (H1 : length (format_i (octave t)) = 1%nat).
  { cbn in Ho. repeat (destruct Ho as [<- | Ho]; [reflexivity|]). contradiction. }
  assert (H3 : length (format_i (ioi t)) = 3%nat).
  { cbn in Hi. repeat (destruct Hi as [<- | Hi]; [reflexivity|]). contradiction. }
  rewrite H1, H3. repeat split.
Qed.

(** ** The counters of the main task *)

Lemma below_by_cases (P : nat -> Prop) (k : nat) :
  (forall n, (n < k)%nat -> P n) -> P k -> forall n, (n < S k)%nat -> P n.
Proof.
  intros Hlt Hk n Hn. destruct (Nat.eq_dec n k) as [-> | Hne]; [exact Hk|].
  apply Hlt. lia.
Qed.

Lemma progress_after_start (n : nat) :
  (n <= 54)%nat ->
  progress_after n = progress_closed n
  /\ pause_after n = pause_closed n
  /\ (block_number (progress_after n) <= blocks)%nat.
Proof.
  intros Hn. assert (Hlt : (n < 55)%nat) by lia. clear Hn. revert n Hlt.
  do 55 (apply below_by_cases;
         [|split; [vm_compute; reflexivity|split; [vm_compute; reflexivity|]];
           vm_compute; lia]).
  intros n Hn. lia.
Qed.

Lemma after_trial_last (t : nat) :
  after_trial (mkProgress t blocks) = (mkProgress (t + 1) blocks, NoPause).
Proof.
  unfold after_trial. cbn [block_number trial_number].
  rewrite Nat.eqb_refl. change (blocks =? 0)%nat with false.
  cbn [andb negb]. rewrite andb_false_r. reflexivity.
Qed.

Lemma progress_after_last_section (n : nat) :
  (54 <= n)%nat -> progress_after n = mkProgress (n - 53) blocks.
Proof.
  induction 1 as [|n Hn IH].
  - vm_compute. reflexivity.
  - cbn [progress_after]. rewrite IH, after_trial_last.
    cbn [fst]. f_equal. lia.
Qed.

(** X19: the counters after any number of trials.  In the practice
    section the trial number counts the trials; after it each section
    counts to [trials_per_block], a pause is shown and the section number
    goes up; the fifth section is never left, so the section number stays
    at [blocks] and the trial number keeps growing.  The pauses are shown
    after the trials 6, 18, 30, 42 and 54 and after no other. *)
Theorem counters_closed_form (n : nat) :
  progress_after n = progress_closed n
  /\ pause_after n = pause_closed n
  /\ (block_number (progress_after n) <= blocks)%nat.
Proof.
  destruct (le_lt_dec n 54) as [Hn | Hn].
  - apply progress_after_start, Hn.
  - assert (Hp : progress_closed n = mkProgress (n - 53) blocks).
    { unfold progress_closed.
      change (length octaves) with 6%nat.
      change (trials_per_block * (blocks - 1))%nat with 48%nat.
      destruct (Nat.ltb_spec n 6); [lia|].
      destruct (Nat.ltb_spec (n - 6) 48); [lia|].
      f_equal. lia. }
    rewrite (progress_after_last_section n) by lia.
    repeat split.
    + symmetry. exact Hp.
    + unfold pause_after.
      rewrite (progress_after_last_section n) by lia.
      rewrite after_trial_last. cbn [snd].
      unfold pause_closed.
      change (length octaves) with 6%nat. change trials_per_block with 12%nat.
      destruct (Nat.eqb_spec (n + 1) 6); [lia|].
      destruct (Nat.eqb_spec ((n + 1 - 6) mod 12) 0) as [Hmod | Hmod];
        [|rewrite andb_false_r; reflexivity].
      pose proof (Nat.div_mod_eq (n + 1 - 6) 12) as Hdiv.
      destruct (Nat.ltb_spec ((n + 1 - 6) / 12) blocks) as [Hlt | Hge];
        [change blocks with 5%nat in Hlt; lia|].
      rewrite andb_false_r. reflexivity.
    + cbn [block_number]. lia.
Qed.

(** ** More on the score *)




Lemma mask_select_map (f : Z -> Z) (a : list Z) :
  forall mask,
    mask_select (map f a) mask
    = match mask_select a mask with
      | Value r => Value (map f r)
      | Error e => Error e
      end.
Proof.
  induction a as [|x a IH]; intros [|m mask]; try reflexivity.
  cbn [map mask_select]. rewrite IH.
  destruct (mask_select a mask); [|reflexivity]. destruct m; reflexivity.
Qed.

Lemma np_diff_shift (c : Z) (a : list Z) :
  np_diff (map (Z.add c) a) = np_diff a.
Proof.
  induction a as [|x [|y a] IH]; [reflexivity|reflexivity|].
  change (np_diff (map (Z.add c) (x :: y :: a)))
    with ((c + y - (c + x)) :: np_diff (map (Z.add c) (y :: a))).
  rewrite IH.
  change (np_diff (x :: y :: a)) with ((y - x) :: np_diff (y :: a)).
  f_equal. lia.
Qed.

(** X22: the score does not depend on where the clock of the device
    started: with every tap timestamp moved by [c] the score, or the
    exception raised for it, is the same. *)
Theorem score_ignores_clock_offset (c : Z) (g : vars) (ser : serial) :
  cont_score (shift_taps c g) ser
  = match cont_score g ser with
    | Ret k _ _ => Ret k (shift_taps c g) ser
    | Raise e _ _ => Raise e (shift_taps c g) ser
    | Spin _ _ => Spin (shift_taps c g) ser
    | Fuel => Fuel
    end.
Proof.
  unfold cont_score, bind, get, lift, shift_taps. cbn [tap_times tap_types set_tap_times].
  rewrite mask_select_map.
  destruct (mask_select (tap_times g) _) as [r|e]; [|reflexivity].
  rewrite np_diff_shift.
  destruct (int_std (np_diff r)); reflexivity.
Qed.

(** ** The main task *)






(** ** Instances *)

Lemma steady_trial_decodable : decodable steady_trial.
Proof.
  split; [|reflexivity]. unfold steady_trial, known_frame.
  repeat (apply List.Forall_cons; [cbn [fst]; tauto|]). apply List.Forall_nil.
Qed.


Lemma short_trial_decodable : decodable short_trial.
Proof.
  split; [|reflexivity]. unfold short_trial, known_frame.
  repeat (apply List.Forall_cons; [cbn [fst]; tauto|]). apply List.Forall_nil.
Qed.

(** Two bytes are recovered from their value 513. *)
Lemma int_from_bytes_little_inj_witness :
  length [x01; x02]%byte = length [x01; x02]%byte
  /\ int_from_bytes_little [x01; x02]%byte = 513
  /\ [x01; x02]%byte = [x01; x02]%byte.
Proof.
  split; [reflexivity|]. split; [reflexivity|].
  apply (int_from_bytes_little_inj [x01; x02]%byte [x01; x02]%byte); reflexivity.
Defined.

(** Two bytes in the buffer where four are read. *)
Lemma read_timestamp_starves_witness :
  (in_waiting (mkSerial [x01; x02]%byte ["B"%byte]) < 4)%nat
  /\ read_timestamp 4 leftovers (mkSerial [x01; x02]%byte ["B"%byte])
     = Spin leftovers (mkSerial [] ["B"%byte]).
Proof.
  split; [vm_compute; lia|].
  apply (read_timestamp_starves 4 leftovers (mkSerial [x01; x02]%byte ["B"%byte])).
  vm_compute. lia.
Defined.

(** The largest timestamp. *)
Lemma read_timestamp_u32_witness :
  read_timestamp 4 leftovers (mkSerial [xff; xff; xff; xff; "I"]%byte [])
  = Ret 4294967295 leftovers (mkSerial ["I"%byte] [])
  /\ 0 <= 4294967295 < 2 ^ 32.
Proof.
  split; [reflexivity|].
  apply (read_timestamp_u32 leftovers leftovers
           (mkSerial [xff; xff; xff; xff; "I"]%byte []) (mkSerial ["I"%byte] [])).
  reflexivity.
Defined.

(** A line feed and the start byte of the other task before a trial. *)
Lemma sc_loop_skips_unknown_bytes_witness :
  Forall (fun b => is_trial_tag b = false) [x0a; "P"]%byte
  /\ sc_loop sc_init (mkSerial ([x0a; "P"]%byte ++ rx early_tap_port) [])
     = sc_loop sc_init (mkSerial (rx early_tap_port) []).
Proof.
  assert (H : Forall (fun b => is_trial_tag b = false) [x0a; "P"]%byte).
  { repeat (apply List.Forall_cons; [reflexivity|]). apply List.Forall_nil. }
  split; [exact H|].
  apply (sc_loop_skips_unknown_bytes [x0a; "P"]%byte (rx early_tap_port) [] sc_init H).
Defined.

(** The steady trial, decoded. *)
Lemma sc_tapping_decodes_frames_witness :
  Forall known_frame steady_trial
  /\ tap_before_continuation steady_trial = true
  /\ exists g,
       sc_tapping 4 600 leftovers (mkSerial (frames steady_trial ++ "I"%byte :: ["T"%byte]) [])
       = Ret tt g (mkSerial [] ([] ++ "B"%byte :: format_i 4 ++ format_i 600))
       /\ tone_times g = tone_stamps steady_trial
       /\ tap_times g = stamps_of "T" steady_trial
       /\ release_times g = stamps_of "R" steady_trial
       /\ length (tap_types g) = length (tap_times g).
Proof.
  split; [exact (proj1 steady_trial_decodable)|]. split; [reflexivity|].
  apply (sc_tapping_decodes_frames 4 600 leftovers steady_trial ["T"%byte] []
           (proj1 steady_trial_decodable) eq_refl).
Defined.

(** The short trial, never closed. *)
Lemma sc_tapping_waits_for_trial_end_witness :
  Forall known_frame short_trial
  /\ tap_before_continuation short_trial = true
  /\ exists g,
       sc_tapping 4 600 leftovers (mkSerial (frames short_trial) [])
       = Spin g (mkSerial [] ([] ++ "B"%byte :: format_i 4 ++ format_i 600))
       /\ tone_times g = tone_stamps short_trial
       /\ tap_times g = stamps_of "T" short_trial
       /\ release_times g = stamps_of "R" short_trial.
Proof.
  split; [exact (proj1 short_trial_decodable)|]. split; [reflexivity|].
  apply (sc_tapping_waits_for_trial_end 4 600 leftovers short_trial []
           (proj1 short_trial_decodable) eq_refl).
Defined.

(** The lists of a trial that started with a tap recorded. *)
Lemma recorded_data_is_kept_witness :
  sc_loop (mkVars "B" [] ["B"%string] [7] []) (mkSerial (frames steady_trial ++ ["I"%byte]) [])
  = Ret tt (mkVars "C" [10; 30] ["B"; "C"; "C"; "C"]%string [7; 20; 40; 60] [50])
      (mkSerial [] [])
  /\ [7] `prefix_of` [7; 20; 40; 60].
Proof.
  split; [reflexivity|].
  exact (proj1 (proj2
           (recorded_data_is_kept (mkVars "B" [] ["B"%string] [7] [])
              (mkVars "C" [10; 30] ["B"; "C"; "C"; "C"]%string [7; 20; 40; 60] [50])
              (mkSerial (frames steady_trial ++ ["I"%byte]) []) (mkSerial [] [])
              (or_intror (or_introl eq_refl))))).
Defined.

(** Thirty releases and five taps. *)
Lemma spr_task_postcondition_witness :
  spr_task leftovers
    (mkSerial (frames spr_before ++ frame "R" (stamp_of_nat 4)
               ++ frame "T" (stamp_of_nat 5)) [])
  = Ret tt
      (mkVars "C" [3; 5] (repeat "P"%string 5) (repeat 2 5)
         (repeat 1 24 ++ repeat 3 5 ++ [4]))
      (mkSerial [] ["P"; "I"]%byte)
  /\ length (repeat 1 24 ++ repeat 3 5 ++ [4]) = nspr_taps.
Proof.
  split; [reflexivity|].
  exact (proj1
           (spr_task_postcondition leftovers
              (mkVars "C" [3; 5] (repeat "P"%string 5) (repeat 2 5)
                 (repeat 1 24 ++ repeat 3 5 ++ [4]))
              (mkSerial (frames spr_before ++ frame "R" (stamp_of_nat 4)
                         ++ frame "T" (stamp_of_nat 5)) [])
              (mkSerial [] ["P"; "I"]%byte) eq_refl)).
Defined.

(** The tags of the rhythm task sent to the tap-counting loop. *)
Lemma spr_loop_skips_other_bytes_witness :
  (length (release_times leftovers) < nspr_taps)%nat
  /\ Forall (fun b => is_spr_tag b = false) ["S"; "C"; "I"]%byte
  /\ spr_loop leftovers (mkSerial (["S"; "C"; "I"]%byte ++ frame "R" (stamp_of_nat 4)) [])
     = spr_loop leftovers (mkSerial (frame "R" (stamp_of_nat 4)) []).
Proof.
  assert (Hlen : (length (release_times leftovers) < nspr_taps)%nat)
    by (vm_compute; lia).
  assert (H : Forall (fun b => is_spr_tag b = false) ["S"; "C"; "I"]%byte).
  { repeat (apply List.Forall_cons; [reflexivity|]). apply List.Forall_nil. }
  split; [exact Hlen|]. split; [exact H|].
  apply (spr_loop_skips_other_bytes ["S"; "C"; "I"]%byte (frame "R" (stamp_of_nat 4))
           [] leftovers Hlen H).
Defined.

(** A device that boots without the banner. *)
Lemma banner_failure_sends_nothing_witness :
  port_opens silent_device = true
  /\ ~ In ready_banner (heard (startup silent_device))
  /\ establish_connection silent_device
     = (mkSession (Some LinkClosed) (mkSerial [] []) false 0, Quit).
Proof.
  assert (Hno : ~ In ready_banner (heard (startup silent_device))).
  { cbn. intros [H | []]. discriminate. }
  split; [reflexivity|]. split; [exact Hno|].
  exact (proj2 (banner_failure_sends_nothing silent_device
                  (mkSession None (mkSerial [] []) true 0) eq_refl Hno)).
Defined.

(** The order when every shuffle reverses. *)
Lemma trial_order_structure_witness :
  exists (practice : list trial) (main : list (list trial)),
    trial_order (@rev N) (fun _ => @rev (N * N)) = practice ++ concat main
    /\ Permutation (map octave practice) octaves
    /\ Forall (fun t => ioi t = practice_ioi /\ event t = "practice"%string) practice
    /\ length main = blocks
    /\ Forall (fun blk =>
                 Permutation (map condition_of blk) (conditions ++ conditions)
                 /\ Forall (fun t => event t = "trial"%string) blk) main
    /\ length (trial_order (@rev N) (fun _ => @rev (N * N))) = 126%nat.
Proof.
  apply (trial_order_structure (@rev N) (fun _ => @rev (N * N))).
  - intros l. symmetry. apply Permutation_rev.
  - intros _ l. symmetry. apply Permutation_rev.
Defined.

(** The first practice trial of that order. *)
Lemma begin_command_is_five_bytes_witness :
  In (mkTrial 7 500 "practice") (trial_order (@rev N) (fun _ => @rev (N * N)))
  /\ begin_command (mkTrial 7 500 "practice") = ["B"; "7"; "5"; "0"; "0"]%byte
  /\ length (begin_command (mkTrial 7 500 "practice")) = 5%nat.
Proof.
  assert (Hin : In (mkTrial 7 500 "practice")
                  (trial_order (@rev N) (fun _ => @rev (N * N))))
    by (left; reflexivity).
  split; [exact Hin|]. split; [reflexivity|].
  refine (proj2 (proj2 (begin_command_is_five_bytes (@rev N) (fun _ => @rev (N * N))
                          (mkTrial 7 500 "practice") _ _ Hin))).
  - intros l. symmetry. apply Permutation_rev.
  - intros _ l. symmetry. apply Permutation_rev.
Defined.



